(** * qr_labels: a shallow embedding of [qr_labels.py]

    The development follows the source file top-down: Python's built-in
    string operations that the program calls, the regular-expression
    fragment used by [_rx_url], the standard library's [textwrap.wrap]
    (with the default options the program relies on), and then the
    program's own functions [chunk_str], [LabelData.__init__],
    [Args.process_args] and [draw_address].

    Strings are lists of characters.  A character is an [ascii], read as
    the code point 0..255 (Latin-1); the character classes below are the
    ones CPython uses on that range. *)

From Stdlib Require Import String Ascii.
From Stdlib Require Import List ZArith Lia Bool Arith QArith.
Import ListNotations.

Local Open Scope Z_scope.

(** ** Results of fallible code *)

Inductive result (E A : Type) : Type :=
| Ok (a : A)
| Err (e : E).

Arguments Ok {E A} a.
Arguments Err {E A} e.

Definition bind {E A B} (m : result E A) (k : A -> result E B) : result E B :=
  match m with
  | Ok a => k a
  | Err e => Err e
  end.

Notation "x <- m ;; k" := (bind m (fun x => k))
  (at level 61, m at next level, right associativity).

(** ** Python strings *)

Module Py.

Definition str := list ascii.

(** A literal. *)
Definition lit (s : string) : str := list_ascii_of_string s.
Arguments lit s%_string.

(** [len(s)] *)
Definition len {A} (s : list A) : Z := Z.of_nat (length s).

Definition code (c : ascii) : N := N_of_ascii c.

Definition between (lo hi : N) (c : ascii) : bool :=
  ((lo <=? code c) && (code c <=? hi))%N.

(** [c.isspace()]: the characters [str.strip] and [str.rstrip] remove. *)
Definition isspace (c : ascii) : bool :=
  between 9 13 c || between 28 32 c || between 133 133 c || between 160 160 c.

Fixpoint drop_while {A} (p : A -> bool) (s : list A) : list A :=
  match s with
  | [] => []
  | c :: s' => if p c then drop_while p s' else s
  end.

(** [s.rstrip()] *)
Definition rstrip (s : str) : str := rev (drop_while isspace (rev s)).

(** [s.strip() == ''] *)
Definition is_blank (s : str) : bool := forallb isspace s.

(** [s.startswith(p)] *)
Fixpoint startswith (s p : str) : bool :=
  match p, s with
  | [], _ => true
  | _ :: _, [] => false
  | a :: p', c :: s' => Ascii.eqb c a && startswith s' p'
  end.

(** [sub in s] *)
Fixpoint contains (sub s : str) : bool :=
  startswith s sub ||
  match s with
  | [] => false
  | _ :: s' => contains sub s'
  end.

(** [s.split(sep)] for a non-empty separator: [skip] counts the characters
    of a separator occurrence still to be passed over, [cur] holds the
    current field, last character first. *)
Fixpoint split_from (sep : str) (skip : nat) (cur : str) (s : str) : list str :=
  match s with
  | [] => [rev cur]
  | c :: s' =>
      match skip with
      | S k => split_from sep k cur s'
      | O =>
          if startswith s sep
          then rev cur :: split_from sep (length sep - 1) [] s'
          else split_from sep 0 (c :: cur) s'
      end
  end.

Definition split (s sep : str) : list str := split_from sep 0 [] s.

(** Slice bounds: a negative index counts from the end, and both ends are
    clipped to the string. *)
Definition clip (n i : Z) : Z :=
  if i <? 0 then Z.max 0 (i + n) else Z.min i n.

(** [s[a:b]] *)
Definition slice {A} (s : list A) (a b : Z) : list A :=
  let a' := clip (len s) a in
  let b' := clip (len s) b in
  firstn (Z.to_nat (b' - a')) (skipn (Z.to_nat a') s).

(** [s[a:]] *)
Definition slice_from {A} (s : list A) (a : Z) : list A :=
  skipn (Z.to_nat (clip (len s) a)) s.

(** [range(0, n)] *)
Definition range (n : Z) : list Z := map Z.of_nat (seq 0 (Z.to_nat n)).

(** [math.ceil(a / b)] for [b <> 0].  The quotient is a float in Python;
    it is exact for every [a] below 2^53, far beyond the length of any
    string. *)
Definition ceil_div (a b : Z) : Z := - ((- a) / b).

(** [''.join(parts)] *)
Definition join (parts : list str) : str := concat parts.

(** [sep.join(parts)] *)
Fixpoint join_with (sep : str) (parts : list str) : str :=
  match parts with
  | [] => []
  | [a] => a
  | a :: rest => a ++ sep ++ join_with sep rest
  end.

(** The maximal runs of characters outside a class [p] of separators;
    [cur] is the run being read, last character first. *)
Definition flush (cur : str) : list str :=
  match cur with
  | [] => []
  | _ :: _ => [rev cur]
  end.

Fixpoint fields_from (p : ascii -> bool) (cur : str) (s : str) : list str :=
  match s with
  | [] => flush cur
  | c :: s' =>
      if p c then flush cur ++ fields_from p [] s'
      else fields_from p (c :: cur) s'
  end.

Definition fields (p : ascii -> bool) (s : str) : list str := fields_from p [] s.

(** [s.split()]: the words of [s], whitespace collapsed. *)
Definition words (s : str) : list str := fields isspace s.

End Py.

Import Py.

Definition space : ascii := " "%char.
Definition hyphen : ascii := "-"%char.
Definition tab : ascii := ascii_of_nat 9.
Definition newline : ascii := ascii_of_nat 10.
Definition vtab : ascii := ascii_of_nat 11.
Definition formfeed : ascii := ascii_of_nat 12.
Definition carriage_return : ascii := ascii_of_nat 13.

(** ** Exceptions the program raises or lets through *)

Inductive exn : Type :=
| ValueError_text_too_long (text : str)      (* 'Text too long: ...' *)
| ValueError_invalid_width (width : Z)       (* textwrap: 'invalid width' *)
| ValueError_invalid_data (data_str : str)   (* 'Invalid data: ...' *)
| ValueError_invalid_data_empty              (* 'Invalid data' *)
| ValueError_invalid_url (url : str)         (* 'Invalid url: ...' *)
| ZeroDivisionError
| KeyError (key : str)
| Diverges.                                  (* a loop that ran out of fuel *)

Definition res := result exn.

(** ** [chunk_str] *)

Definition chunk_str (cstr : str) (max_len : Z) : res (list str) :=
  if max_len =? 0 then Err ZeroDivisionError
  else
    let chunks := ceil_div (len cstr) max_len in
    Ok (map (fun idx =>
               let i := rstrip (slice cstr (idx * max_len) (idx * max_len + max_len)) in
               if negb (idx =? 0) && startswith i [space] then slice_from i 1 else i)
            (range chunks)).

(** ** Regular expressions

    The fragment of Python's [re] that the program and [textwrap] use:
    character classes, and for [_rx_url] a backtracking matcher with
    greedy repetition of a class, greedy options and capturing groups. *)

Module re.

(** [\d] *)
Definition is_digit (c : ascii) : bool := between 48 57 c.

(** [\w] on code points below 256: alphanumerics and the underscore. *)
Definition is_word (c : ascii) : bool :=
  between 48 57 c || between 65 90 c || between 95 95 c || between 97 122 c ||
  between 170 170 c || between 178 179 c || between 181 181 c ||
  between 185 186 c || between 188 190 c || between 192 214 c ||
  between 216 246 c || between 248 255 c.

(** A character class, as a predicate. *)
Definition cls := ascii -> bool.

(** [.] matches anything but a newline. *)
Definition dot : cls := fun c => negb (Ascii.eqb c newline).

(** [[^...]] *)
Definition none_of (cs : str) : cls := fun c => negb (existsb (Ascii.eqb c) cs).

Definition one (a : ascii) : cls := fun c => Ascii.eqb c a.

Inductive regex : Type :=
| Cls (p : cls)                 (* one character of a class *)
| Plus (p : cls)                (* [p+], greedy *)
| Seq (r1 r2 : regex)
| Opt (r : regex)               (* [r?], greedy *)
| Group (n : nat) (r : regex).  (* capturing group number n *)

Fixpoint literal (s : str) : regex :=
  match s with
  | [] => Opt (Cls (fun _ => false))
  | [c] => Cls (one c)
  | c :: s' => Seq (Cls (one c)) (literal s')
  end.

(** Captured groups: the text of each group that took part in the match. *)
Definition groups := list (nat * str).

Fixpoint lookup (n : nat) (g : groups) : option str :=
  match g with
  | [] => None
  | (k, s) :: g' => if Nat.eqb k n then Some s else lookup n g'
  end.

(** [p+] in continuation-passing style: take one more character first,
    and give back characters only when the rest of the pattern fails. *)
Fixpoint plus {A : Type} (p : cls) (s : str) (k : str -> option A) : option A :=
  match s with
  | [] => None
  | c :: s' =>
      if p c then
        match plus p s' k with
        | Some r => Some r
        | None => k s'
        end
      else None
  end.

(** [run r s g k] matches [r] at the front of [s] and passes what is left
    of [s], with the groups so far, to the continuation [k]; alternatives
    are tried in the order Python tries them. *)
Fixpoint run (r : regex) (s : str) (g : groups)
         (k : str -> groups -> option groups) : option groups :=
  match r with
  | Cls p =>
      match s with
      | c :: s' => if p c then k s' g else None
      | [] => None
      end
  | Plus p => plus p s (fun s' => k s' g)
  | Seq r1 r2 => run r1 s g (fun s1 g1 => run r2 s1 g1 k)
  | Opt r1 =>
      match run r1 s g k with
      | Some g' => Some g'
      | None => k s g
      end
  | Group n r1 =>
      run r1 s g
          (fun s' g' => k s' ((n, firstn (length s - length s') s) :: g'))
  end.

(** [pattern.match(s)]: anchored at the start, free at the end. *)
Definition match_ (r : regex) (s : str) : option groups :=
  run r s [] (fun _ g => Some g).

(** [m.group(n)] *)
Definition group (m : groups) (n : nat) : option str := lookup n m.

End re.

(** ** [textwrap.wrap]

    [TextWrapper] with its default options: [expand_tabs], [tabsize = 8],
    [replace_whitespace], [break_long_words], [break_on_hyphens] and
    [drop_whitespace] on; no indents, no [fix_sentence_endings], no
    [max_lines]. *)

Module textwrap.

Definition _whitespace : str := [tab; newline; vtab; formfeed; carriage_return; space].

Definition is_ws (c : ascii) : bool := existsb (Ascii.eqb c) _whitespace.

(** [word_punct]: a [\w] character or one of ! ' & . , ? or the double
    quote (code 34). *)
Definition is_word_punct (c : ascii) : bool :=
  re.is_word c || existsb (Ascii.eqb c) (ascii_of_nat 34 :: lit "!'&.,?").

(** [letter = [^\d\W]] *)
Definition is_letter (c : ascii) : bool := re.is_word c && negb (re.is_digit c).

(** [text.expandtabs(tabsize)], [column] being the position in the line. *)
Fixpoint expandtabs_from (tabsize column : nat) (s : str) : str :=
  match s with
  | [] => []
  | c :: s' =>
      if Ascii.eqb c tab then
        if (0 <? tabsize)%nat then
          let incr := (tabsize - column mod tabsize)%nat in
          repeat space incr ++ expandtabs_from tabsize (column + incr) s'
        else expandtabs_from tabsize column s'
      else
        c :: expandtabs_from tabsize
               (if Ascii.eqb c newline || Ascii.eqb c carriage_return
                then 0%nat else S column) s'
  end.

Definition expandtabs (s : str) (tabsize : nat) : str := expandtabs_from tabsize 0 s.

(** [text.translate(unicode_whitespace_trans)] *)
Definition translate_whitespace (s : str) : str :=
  map (fun c => if is_ws c then space else c) s.

Definition _munge_whitespace (text : str) : str :=
  translate_whitespace (expandtabs text 8).

(** *** [wordsep_re]

    The pattern is one capturing group of three alternatives, each of
    which consumes at least one character and one of which matches at
    every position, so [wordsep_re.split] cuts the text into consecutive
    matches.  [match_len before ahead] is the length of the match at a
    position, [before] being the text to the left of it, nearest
    character first. *)

Fixpoint run_length (p : ascii -> bool) (s : str) : nat :=
  match s with
  | c :: s' => if p c then S (run_length p s') else O
  | [] => O
  end.

Definition is_hyphen (c : ascii) : bool := Ascii.eqb c hyphen.

(** [(?=-{2,}\w)] *)
Definition emdash_ahead (ahead : str) : bool :=
  let n := run_length is_hyphen ahead in
  (2 <=? n)%nat &&
  match skipn n ahead with
  | c :: _ => re.is_word c
  | [] => false
  end.

(** [(?<=word_punct)] *)
Definition word_punct_behind (before : str) : bool :=
  match before with
  | c :: _ => is_word_punct c
  | [] => false
  end.

(** [(?<=letter{2}-) | (?<=letter-letter-)], looked up to the left of the
    hyphen. *)
Definition letters_behind (before : str) : bool :=
  match before with
  | x1 :: x2 :: more =>
      is_letter x1 &&
      (is_letter x2 ||
       (is_hyphen x2 && match more with x3 :: _ => is_letter x3 | [] => false end))
  | _ => false
  end.

(** [(?= letter -? letter)] *)
Definition letters_ahead (ahead : str) : bool :=
  match ahead with
  | a :: b :: more =>
      is_letter a &&
      (is_letter b ||
       (is_hyphen b && match more with c :: _ => is_letter c | [] => false end))
  | _ => false
  end.

(** The third alternative, after its first character: [nws+?] takes one
    more character only when none of the three endings matches here. *)
Fixpoint word_rest (before ahead : str) : nat :=
  match ahead with
  | [] => O                                                  (* \Z *)
  | c :: ahead' =>
      if is_hyphen c && letters_behind before && letters_ahead ahead'
      then 1%nat                                             (* hyphenated word *)
      else if is_ws c then O                                 (* end of word *)
      else if word_punct_behind before && emdash_ahead ahead
      then O                                                 (* em-dash follows *)
      else S (word_rest (c :: before) ahead')
  end.

Definition match_len (before ahead : str) : nat :=
  match ahead with
  | [] => O
  | c :: ahead' =>
      if is_ws c then S (run_length is_ws ahead')            (* any whitespace *)
      else if word_punct_behind before && emdash_ahead ahead
      then run_length is_hyphen ahead                        (* em-dash between words *)
      else S (word_rest (c :: before) ahead')                (* word *)
  end.

Fixpoint split_matches (fuel : nat) (before ahead : str) : list str :=
  match fuel, ahead with
  | S fuel', _ :: _ =>
      let n := match_len before ahead in
      firstn n ahead :: split_matches fuel' (rev (firstn n ahead) ++ before) (skipn n ahead)
  | _, _ => []
  end.

(** [_split]: every match is non-empty, so one unit of fuel per character
    is enough (see [split_concat]). *)
Definition _split (text : str) : list str := split_matches (length text) [] text.

Definition _split_chunks (text : str) : list str := _split (_munge_whitespace text).

(** *** [_handle_long_word] and [_wrap_chunks]

    The stack [reversed_chunks] is a list whose head is Python's
    [chunks[-1]], the next chunk of the text; [cur_line] is kept with the
    chunk appended last at its head. *)

Fixpoint find_last (c : ascii) (s : str) (i found : Z) : Z :=
  match s with
  | [] => found
  | x :: s' => find_last c s' (i + 1) (if Ascii.eqb x c then i else found)
  end.

(** [s.rfind(c, 0, hi)] *)
Definition rfind (s : str) (c : ascii) (hi : Z) : Z :=
  find_last c (slice s 0 hi) 0 (-1).

Definition _handle_long_word (reversed_chunks cur_line : list str)
           (cur_len width : Z) : list str * list str :=
  let space_left := if width <? 1 then 1 else width - cur_len in
  match reversed_chunks with
  | chunk :: below =>
      let end_ :=
        if space_left <? len chunk then
          let hyphen_at := rfind chunk hyphen space_left in
          if (0 <? hyphen_at) &&
             existsb (fun c => negb (is_hyphen c)) (slice chunk 0 hyphen_at)
          then hyphen_at + 1
          else space_left
        else space_left in
      (slice_from chunk end_ :: below, slice chunk 0 end_ :: cur_line)
  | [] => (reversed_chunks, cur_line)     (* not reached: the caller tests [chunks] *)
  end.

(** The inner [while chunks] loop: chunks move to the line while they fit. *)
Fixpoint fill_line (width : Z) (chunks cur_line : list str) (cur_len : Z)
  : list str * list str * Z :=
  match chunks with
  | [] => (chunks, cur_line, cur_len)
  | c :: below =>
      if cur_len + len c <=? width
      then fill_line width below (c :: cur_line) (cur_len + len c)
      else (chunks, cur_line, cur_len)
  end.

Definition is_nil {A} (l : list A) : bool :=
  match l with [] => true | _ => false end.

(** [if chunks[-1].strip() == '' and lines: del chunks[-1]] *)
Definition drop_leading_blank (chunks lines : list str) : list str :=
  match chunks with
  | top :: below => if is_blank top && negb (is_nil lines) then below else chunks
  | [] => chunks
  end.

(** [if cur_line and cur_line[-1].strip() == '': del cur_line[-1]] *)
Definition drop_trailing_blank (cur_line : list str) : list str :=
  match cur_line with
  | last :: front => if is_blank last then front else cur_line
  | [] => cur_line
  end.

(** [if cur_line: lines.append(''.join(cur_line))] *)
Definition append_line (lines cur_line : list str) : list str :=
  match cur_line with
  | [] => lines
  | _ :: _ => lines ++ [join (rev cur_line)]
  end.

(** One pass of the outer [while chunks] loop.  (The running [cur_len]
    is not needed after [_handle_long_word] when [max_lines] is unset.) *)
Definition wrap_step (width : Z) (chunks lines : list str) : list str * list str :=
  let chunks := drop_leading_blank chunks lines in
  let '(chunks, cur_line, cur_len) := fill_line width chunks [] 0 in
  let '(chunks, cur_line) :=
    match chunks with
    | c :: _ =>
        if width <? len c
        then _handle_long_word chunks cur_line cur_len width
        else (chunks, cur_line)
    | [] => (chunks, cur_line)
    end in
  let cur_line := drop_trailing_blank cur_line in
  (chunks, append_line lines cur_line).

Fixpoint wrap_loop (fuel : nat) (width : Z) (chunks lines : list str)
  : option (list str) :=
  match chunks with
  | [] => Some lines
  | _ :: _ =>
      match fuel with
      | O => None
      | S fuel' =>
          let '(chunks', lines') := wrap_step width chunks lines in
          wrap_loop fuel' width chunks' lines'
      end
  end.

(** Every pass removes a chunk or shortens one, so this many passes are
    enough (see [wrap_loop_terminates]). *)
Definition weight (chunks : list str) : nat :=
  fold_right (fun c n => S (length c + n)) O chunks.

Definition _wrap_chunks (width : Z) (chunks : list str) : res (list str) :=
  if width <=? 0 then Err (ValueError_invalid_width width)
  else
    match wrap_loop (weight chunks) width chunks [] with
    | Some lines => Ok lines
    | None => Err Diverges
    end.

Definition wrap (text : str) (width : Z) : res (list str) :=
  let chunks := _split_chunks text in
  _wrap_chunks width chunks.

End textwrap.

(** ** The program: labels and their text *)

Definition _line_break : str := lit "#%".

Definition _default_font : str := lit "Roboto".
Definition _default_font_size : Z := 9.

(** [labels.Specification]: the sheet geometry, in millimetres. *)
Record Specification : Type := {
  sheet_width : Q;  sheet_height : Q;
  columns : Z;  rows : Z;
  label_width : Q;  label_height : Q;
  corner_radius : Q;
  left_margin : Q;  right_margin : Q;  top_margin : Q;
  left_padding : Q;  right_padding : Q;  top_padding : Q;  bottom_padding : Q;
  row_gap : Q
}.

Record LabelMeta : Type := {
  specs : Specification;
  font : str;
  font_size : Z;
  subtext_font_size : Z;
  text_line_max_len : Z;
  max_text_lines : Z;
  qr_text_pad : Z;
  include_timestamp : bool
}.

Record LabelLine : Type := {
  text : str;
  font_name : str;
  line_font_size : Z
}.

Record LabelData : Type := {
  url : str;
  lines : list LabelLine;
  meta : LabelMeta
}.

(** The reading of the clock, and [strftime('%y-%m-%d')]. *)
Record date : Type := { year : nat; month : nat; day : nat }.

Definition digit (n : nat) : ascii := ascii_of_nat (48 + n mod 10).

Definition two_digits (n : nat) : str := [digit (n / 10); digit n].

Definition strftime_y_m_d (d : date) : str :=
  two_digits (year d mod 100) ++ [hyphen] ++ two_digits (month d) ++ [hyphen] ++
  two_digits (day d).

(** The loop [for line in lines: wrapped_lines += f(line)] that
    [break_word] and [break_any] share. *)
Fixpoint extend_each (f : str -> res (list str)) (lines : list str)
         (wrapped_lines : list str) : res (list str) :=
  match lines with
  | [] => Ok wrapped_lines
  | line :: rest =>
      more <- f line ;;
      extend_each f rest (wrapped_lines ++ more)
  end.

Definition break_word (label_meta : LabelMeta) (lines : list str) : res (list str) :=
  extend_each (fun line => textwrap.wrap line (text_line_max_len label_meta)) lines [].

Definition break_any (label_meta : LabelMeta) (lines : list str) : res (list str) :=
  extend_each
    (fun line =>
       if len line <=? text_line_max_len label_meta then Ok [line]
       else chunk_str line (text_line_max_len label_meta))
    lines [].

(** The fragments of the caption that both strategies start from. *)
Definition text_lines_of (text : str) : list str :=
  if contains _line_break text
  then map rstrip (split text _line_break)
  else [rstrip text].

(** [LabelData.__init__].  The global [_args.break_on_any] and the clock
    are arguments. *)
Definition LabelData_init (break_on_any : bool) (now : date)
           (url text : str) (label_meta : LabelMeta) : res LabelData :=
  let text_lines := text_lines_of text in
  broken_lines <-
    (if break_on_any then break_any label_meta text_lines
     else
       broken_lines <- break_word label_meta text_lines ;;
       if max_text_lines label_meta <? len broken_lines
       then break_any label_meta text_lines
       else Ok broken_lines) ;;
  if max_text_lines label_meta <? len broken_lines
  then Err (ValueError_text_too_long text)
  else
    let lines :=
      map (fun line => {| text := line; font_name := font label_meta;
                          line_font_size := font_size label_meta |})
          broken_lines in
    let lines :=
      if include_timestamp label_meta
      then lines ++ [{| text := strftime_y_m_d now; font_name := font label_meta;
                        line_font_size := subtext_font_size label_meta |}]
      else lines in
    Ok {| url := url; lines := lines; meta := label_meta |}.

Definition avery_5160 : LabelMeta := {|
  specs := {|
    sheet_width := 2159 # 10;  sheet_height := 2794 # 10;
    columns := 3;  rows := 10;
    label_width := 66 # 1;  label_height := 254 # 10;
    corner_radius := 2 # 1;
    left_margin := 5 # 1;  right_margin := 5 # 1;  top_margin := 13 # 1;
    left_padding := 0 # 1;  right_padding := 1 # 1;  top_padding := 1 # 1;
    bottom_padding := 1 # 1;
    row_gap := 0 # 1
  |};
  font := _default_font;
  font_size := _default_font_size;
  subtext_font_size := _default_font_size - 3;
  text_line_max_len := 21;
  max_text_lines := 4;
  qr_text_pad := 3;
  include_timestamp := true
|}.

Definition str_eqb (a b : str) : bool :=
  if list_eq_dec ascii_dec a b then true else false.

Definition _label_meta (key : str) : option LabelMeta :=
  if str_eqb key (lit "avery-5160") then Some avery_5160 else None.

(** ** The program: parsing the arguments *)

Import re.

(** [(https?://)?(.+[^/.]+\.[^/.]+)(/?.+)?] *)
Definition _rx_url : regex :=
  Seq (Opt (Group 1 (Seq (literal (lit "http"))
                    (Seq (Opt (Cls (one "s"))) (literal (lit "://"))))))
 (Seq (Group 2 (Seq (Plus dot)
               (Seq (Plus (none_of (lit "/.")))
               (Seq (Cls (one "."))
                    (Plus (none_of (lit "/.")))))))
      (Opt (Group 3 (Seq (Opt (Cls (one "/"))) (Plus dot))))).

(** Lines 167-173: the check of the url field and the default scheme. *)
Definition normalize_url (url : str) : res str :=
  match match_ _rx_url url with
  | None => Err (ValueError_invalid_url url)
  | Some m =>
      match group m 1 with
      | None | Some [] => Ok (lit "https://" ++ url)
      | Some (_ :: _) => Ok url
      end
  end.

(** The body of the loop over the data tokens. *)
Definition process_data_str (break_on_any : bool) (now : date)
           (label_type : LabelMeta) (data_str : str) : res LabelData :=
  match split data_str (lit "~") with
  | [d0; d1] =>
      url <- normalize_url d0 ;;
      LabelData_init break_on_any now url d1 label_type
  | _ => Err (ValueError_invalid_data data_str)
  end.

Fixpoint for_each {A B} (f : A -> res B) (xs : list A) (acc : list B) : res (list B) :=
  match xs with
  | [] => Ok acc
  | x :: xs' =>
      y <- f x ;;
      for_each f xs' (acc ++ [y])
  end.

(** [Args.process_args]: the result is the new value of [self.label_type]
    and of [self.data]. *)
Definition process_args (break_on_any : bool) (now : date)
           (label_type : str) (data : list str) : res (LabelMeta * list LabelData) :=
  match _label_meta label_type with
  | None => Err (KeyError label_type)
  | Some label_type =>
      if 0 <? len data
      then
        data <- for_each (process_data_str break_on_any now label_type) data [] ;;
        Ok (label_type, data)
      else Err ValueError_invalid_data_empty
  end.

(** ** The program: drawing one label

    The numbers of the drawing library are Python floats; the renderer is
    modelled over any type [F] of numbers with the operations it uses, and
    over the library's measurement [getBounds].  The drawing surface
    [label] and the record [data] are objects the function changes in
    place, so both are returned next to the outcome. *)

Section Renderer.

Variable F : Type.
Variables (fadd fsub fmul : F -> F -> F).
Variable fdiv : F -> F -> option F.         (* [None]: division by zero *)
Variable fle : F -> F -> bool.              (* [<=] *)
Variable of_int : Z -> F.
Variables (f_1_01 f_1_1 : F).               (* the literals 1.01 and 1.1 *)

#[warnings="-register-all"]
Inductive shape : Type :=
| String_ (x y : F) (text fontName : str) (fontSize : Z)
| Group_ (contents : list shape) (translated : list (F * F))
| QrCodeWidget (value barLevel : str)
| Drawing_ (w h : F) (transform : list F) (contents : list shape).

(** [getBounds()] gives [(x1, y1, x2, y2)], or [None] for an empty group. *)
Variable getBounds : shape -> option (F * F * F * F).

Inductive render_exn : Type :=
| AssertionError (data : LabelData) (measured limit : F)
| TypeError                                  (* unpacking [None] *)
| FloatDivisionByZero.

(** [parent.add(child)] *)
Definition add (parent child : shape) : shape :=
  match parent with
  | Group_ contents t => Group_ (contents ++ [child]) t
  | Drawing_ w h t contents => Drawing_ w h t (contents ++ [child])
  | _ => parent
  end.

(** [group.translate(dx, dy)] *)
Definition translate (group : shape) (dx dy : F) : shape :=
  match group with
  | Group_ contents t => Group_ contents (t ++ [(dx, dy)])
  | _ => group
  end.

(** The loop over [data.lines].  A [LabelLine] object is always true, so
    the test [if not line] skips nothing. *)
Fixpoint draw_lines (lines : list LabelLine) (x y : F) (group : shape)
  : result render_exn (F * shape) :=
  match lines with
  | [] => Ok (y, group)
  | line :: rest =>
      let shape := String_ x y (text line) (font_name line) (line_font_size line) in
      match getBounds shape with
      | None => Err TypeError
      | Some (_, _, _, y) =>
          let y := fadd y (of_int 3) in
          draw_lines rest x y (add group shape)
      end
  end.

Definition text_x_of (height : F) (data : LabelData) : F :=
  fadd (fmul height f_1_01) (of_int (qr_text_pad (meta data))).

Definition draw_address (label : shape) (width height : F) (data : LabelData)
  : result render_exn unit * shape * LabelData :=
  (* data.lines.reverse() *)
  let data := {| url := url data; lines := rev (lines data); meta := meta data |} in
  let text_x := text_x_of height data in
  match draw_lines (lines data) (of_int 0) (of_int 3) (Group_ [] []) with
  | Err e => (Err e, label, data)
  | Ok (y, group) =>
      match getBounds label, getBounds group with
      | Some (_, _, label_x_bound, label_y_bound),
        Some (_, _, text_x_bound, text_y_bound) =>
          if negb (fle text_x_bound (fsub label_x_bound text_x))
          then (Err (AssertionError data text_x_bound label_x_bound), label, data)
          else if negb (fle text_y_bound label_y_bound)
          then (Err (AssertionError data text_y_bound label_y_bound), label, data)
          else
            let group := translate group text_x (fsub height y) in
            let qrc := QrCodeWidget (url data) (lit "M") in
            match getBounds qrc with
            | None => (Err TypeError, label, data)
            | Some (b0, b1, b2, b3) =>
                match fdiv (fsub b2 b0) f_1_1, fdiv (fsub b3 b1) f_1_1 with
                | Some w, Some h =>
                    match fdiv height w, fdiv height h with
                    | Some sx, Some sy =>
                        let d := Drawing_ w h [sx; of_int 0; of_int 0; sy; of_int 0; of_int 0] [] in
                        let d := add d qrc in
                        let label := add label d in
                        let label := add label group in
                        (Ok tt, label, data)
                    | _, _ => (Err FloatDivisionByZero, label, data)
                    end
                | _, _ => (Err FloatDivisionByZero, label, data)
                end
            end
      | _, _ => (Err TypeError, label, data)
      end
  end.

End Renderer.

Arguments String_ {F} x y text fontName fontSize.
Arguments Group_ {F} contents translated.
Arguments QrCodeWidget {F} value barLevel.
Arguments Drawing_ {F} w h transform contents.
Arguments AssertionError {F} data measured limit.
Arguments TypeError {F}.
Arguments FloatDivisionByZero {F}.
Arguments add {F} parent child.
Arguments translate {F} group dx dy.
Arguments draw_lines {F} fadd of_int getBounds lines x y group.
Arguments text_x_of {F} fadd fmul of_int f_1_01 height data.
Arguments draw_address {F} fadd fsub fmul fdiv fle of_int f_1_01 f_1_1 getBounds
  label width height data.

(** ** The program: [main]

    The cells of the first page that stay empty, lines 245-246: [//] and
    [%] on Python integers round to the floor, as [Z.div] and [Z.modulo]
    do.  Laying the sheet out and writing it is the layout library's
    part. *)

Definition skip_cells (skip columns : Z) : res (list (Z * Z)) :=
  for_each
    (fun si =>
       if columns =? 0 then Err ZeroDivisionError
       else Ok (si / columns + 1, si mod columns + 1))
    (range skip) [].

Import textwrap.

(** * The vocabulary of the properties

    Predicates and measures that the statements below use, and the
    captions, templates and drawings they are tried on. *)

Definition total (chunks : list str) : Z := len (concat chunks).

Definition five_words : str :=
  lit "aaaaaaaaaaaaaaaaaaaaa bbbbbbbbbbbbbbbbbbbbb ccccccccccccccccccccc ddddddddddddddddddddd eeeeeeeeeeeeeeeeeeeee".

Definition a_day : date := {| year := 2024; month := 6; day := 1 |}.

Definition a_url : str := lit "https://example.com".

(** The record that the constructor leaves behind for the caption lines
    [broken_lines] (lines 105 to 108): one line record per caption line in
    the template's font and size, then the timestamp line in the subtext
    size when the template asks for one. *)
Definition record_of (now : date) (url : str) (label_meta : LabelMeta)
           (broken_lines : list str) : LabelData :=
  {| url := url;
     lines :=
       map (fun line => {| text := line; font_name := font label_meta;
                           line_font_size := font_size label_meta |}) broken_lines
       ++ (if include_timestamp label_meta
           then [{| text := strftime_y_m_d now; font_name := font label_meta;
                    line_font_size := subtext_font_size label_meta |}]
           else []);
     meta := label_meta |}.

Definition two_fragments : str :=
  lit "aaaaaaaaaaa bbbbbbbbbbb ccccccccccc#%ddddddddddd eeeeeeeeeee fffffffffff".

Definition eleven_letter_words : str :=
  lit "aaaaaaaaaaa bbbbbbbbbbb ccccccccccc ddddddddddd eeeeeeeeeee".

Definition within_template (label_meta : LabelMeta) (data : LabelData) : Prop :=
  len (lines data) <= max_text_lines label_meta /\
  Forall (fun l => len (text l) <= text_line_max_len label_meta) (lines data).

Definition four_lines : str := lit "a#%b#%c#%d".

(** The caption lines that lines 94 to 100 hand on: in forced hard-break
    mode the hard-broken fragments; in default mode the wrapped fragments
    when they are at most [max_text_lines], and the hard-broken fragments
    otherwise. *)
Definition lines_in_use (break_on_any : bool) (label_meta : LabelMeta)
           (fragments caption_lines : list str) : Prop :=
  (break_on_any = true /\ break_any label_meta fragments = Ok caption_lines) \/
  (break_on_any = false /\
   break_word label_meta fragments = Ok caption_lines /\
   len caption_lines <= max_text_lines label_meta) \/
  (break_on_any = false /\
   exists by_word,
     break_word label_meta fragments = Ok by_word /\
     max_text_lines label_meta < len by_word /\
     break_any label_meta fragments = Ok caption_lines).

(** The template avery-5160 with a line length of 5. *)
Definition short_line_template : LabelMeta :=
  {| specs := specs avery_5160; font := font avery_5160;
     font_size := font_size avery_5160;
     subtext_font_size := subtext_font_size avery_5160;
     text_line_max_len := 5; max_text_lines := max_text_lines avery_5160;
     qr_text_pad := qr_text_pad avery_5160;
     include_timestamp := include_timestamp avery_5160 |}.

Definition trailing_break : str := lit "Hello#%".

Definition two_spaces_at_the_cut : str := lit "aaaaaaaaaaaaaaaaaaaaa  b".

(** Only the plain space among the characters [textwrap] treats as
    whitespace: no tab, line feed, vertical tab, form feed or carriage
    return. *)
Definition plain_spaces (s : str) : Prop :=
  Forall (fun c => is_ws c = true -> c = space) s.

Definition plain_spacesb (s : str) : bool :=
  forallb (fun c => negb (is_ws c) || Ascii.eqb c space) s.

Definition hello_world : str := lit "Hello World  ".

(** A chunk that only separates: not empty, and separators only. *)
Definition spacer (p : ascii -> bool) (c : str) : Prop := c <> [] /\ forallb p c = true.

(** Of any two neighbours in a list of chunks, one is a spacer. *)
Fixpoint separated (p : ascii -> bool) (chunks : list str) : Prop :=
  match chunks with
  | c1 :: (c2 :: _) as rest => (spacer p c1 \/ spacer p c2) /\ separated p rest
  | _ => True
  end.

Definition no_hyphen (s : str) : Prop := ~ In hyphen s.

Definition not_ws (c : ascii) : bool := negb (is_ws c).

(** A chunk that is a word: not empty, and no [textwrap] whitespace. *)
Definition word_chunk (c : str) : Prop := c <> [] /\ forallb not_ws c = true.

(** The state of the stack of chunks: neighbours are separated, no chunk
    is empty, and a chunk longer than the width is blank. *)
Definition stack_ok (width : Z) (chunks : list str) : Prop :=
  separated isspace chunks /\
  Forall (fun c => c <> [] /\ (is_blank c = false -> len c <= width)) chunks.

Definition long_word : str := lit "aaaaaaaaaaaaaaaaaaaaaaaaa".

(** A fragment that the word-preserving wrap leaves whole: it has no
    hyphen, and each of its words (the runs between the whitespace that
    [textwrap] breaks at) fits the line. *)
Definition words_fit (width : Z) (fragment : str) : Prop :=
  no_hyphen fragment /\
  Forall (fun word => len word <= width) (fields is_ws fragment).

(** The same, as a test. *)
Definition words_fitb (width : Z) (fragment : str) : bool :=
  forallb (fun c => negb (is_hyphen c)) fragment &&
  forallb (fun word => len word <=? width) (fields is_ws fragment).

Definition some_caption : str :=
  lit "The quick  brown fox jumps over#%the lazy dog, twice.  ".

(** The texts a pattern matches. *)
Inductive matches : regex -> str -> Prop :=
| m_cls (p : cls) (c : ascii) : p c = true -> matches (Cls p) [c]
| m_plus_one (p : cls) (c : ascii) : p c = true -> matches (Plus p) [c]
| m_plus_more (p : cls) (c : ascii) (s : str) :
    p c = true -> matches (Plus p) s -> matches (Plus p) (c :: s)
| m_seq (r1 r2 : regex) (s1 s2 : str) :
    matches r1 s1 -> matches r2 s2 -> matches (Seq r1 r2) (s1 ++ s2)
| m_opt_none (r : regex) : matches (Opt r) []
| m_opt_some (r : regex) (s : str) : matches r s -> matches (Opt r) s
| m_group (n : nat) (r : regex) (s : str) : matches r s -> matches (Group n r) s.

Fixpoint has_group (n : nat) (r : regex) : bool :=
  match r with
  | Cls _ | Plus _ => false
  | Seq r1 r2 => has_group n r1 || has_group n r2
  | Opt r1 => has_group n r1
  | Group k r1 => Nat.eqb k n || has_group n r1
  end.

Definition scheme_text : regex :=
  Seq (literal (lit "http")) (Seq (Opt (Cls (one "s"))) (literal (lit "://"))).

Definition scheme_pattern : regex := Group 1 scheme_text.

Definition host_and_path_pattern : regex :=
  Seq (Group 2 (Seq (Plus dot)
               (Seq (Plus (none_of (lit "/.")))
               (Seq (Cls (one "."))
                    (Plus (none_of (lit "/.")))))))
      (Opt (Group 3 (Seq (Opt (Cls (one "/"))) (Plus dot)))).


(** The record after [data.lines.reverse()]. *)
Definition reversed (data : LabelData) : LabelData :=
  {| url := url data; lines := rev (lines data); meta := meta data |}.

(** A measurement for examples, over the rationals: a character is
    three fifths of the font size wide, a line is as high as its font
    size, a group spans its strings, a drawing is as large as declared. *)
Definition demo_div (a b : Q) : option Q :=
  if Qeq_bool b 0 then None else Some (a / b)%Q.

Definition demo_max (a b : Q) : Q := if Qle_bool a b then b else a.

Definition demo_string_bounds (s : shape Q) : option (Q * Q * Q * Q) :=
  match s with
  | String_ x y t _ size =>
      Some (x, y, x + (3 # 5) * inject_Z size * inject_Z (len t), y + inject_Z size)%Q
  | _ => None
  end.

Definition demo_union (a : option (Q * Q * Q * Q)) (s : shape Q) : option (Q * Q * Q * Q) :=
  match a, demo_string_bounds s with
  | Some (x1, y1, x2, y2), Some (_, _, u2, v2) => Some (x1, y1, demo_max x2 u2, demo_max y2 v2)
  | None, b => b
  | Some b, None => Some b
  end.

Definition demo_bounds (s : shape Q) : option (Q * Q * Q * Q) :=
  match s with
  | String_ _ _ _ _ _ => demo_string_bounds s
  | Group_ contents _ => fold_left demo_union contents None
  | QrCodeWidget _ _ => Some (0, 0, 100, 100)%Q
  | Drawing_ w h _ _ => Some (0, 0, w, h)%Q
  end.

Definition demo_draw_address :=
  draw_address Qplus Qminus Qmult demo_div Qle_bool inject_Z (101 # 100) (11 # 10) demo_bounds.

(** An avery-5160 cell in points, and two records for it. *)
Definition demo_label : shape Q := Drawing_ (187 # 1) (72 # 1) [] [].

Definition demo_line (t : str) (size : Z) : LabelLine :=
  {| text := t; font_name := _default_font; line_font_size := size |}.

Definition wide_record : LabelData :=
  {| url := lit "https://example.com";
     lines := [demo_line (lit "aaaaaaaaaaaaaaaaaaaaa") 9; demo_line (lit "24-06-01") 6];
     meta := avery_5160 |}.

Definition narrow_record : LabelData :=
  {| url := lit "https://example.com";
     lines := [demo_line (lit "Hello World") 9; demo_line (lit "24-06-01") 6];
     meta := avery_5160 |}.

(** The characters of a string that show: all but the whitespace. *)
Definition visible (s : str) : str := filter (fun c => negb (isspace c)) s.

(** A string that does not end in whitespace. *)
Definition trimmed (s : str) : Prop :=
  forall front c, s = front ++ [c] -> isspace c = false.

Definition spaced_caption : str := lit "  The quick   brown fox jumps#% over the lazy dog,   twice and again  ".

Definition hyphenated_caption : str :=
  lit "A well-known, extraordinarily-long hyphenated-word caption".

(** A template like avery-5160 with another line length. *)
Definition with_line_length (n : Z) : LabelMeta :=
  {| specs := specs avery_5160; font := font avery_5160;
     font_size := font_size avery_5160;
     subtext_font_size := subtext_font_size avery_5160;
     text_line_max_len := n; max_text_lines := max_text_lines avery_5160;
     qr_text_pad := qr_text_pad avery_5160;
     include_timestamp := include_timestamp avery_5160 |}.

Definition tilde : ascii := "~"%char.

Definition two_tokens : list str :=
  [lit "example.com/a~First label"; lit "http://example.org~Second#%label"].

(** A character that may stand next to the dot of the host: neither a
    slash nor a dot. *)
Definition label_char (c : ascii) : Prop := c <> "/"%char /\ c <> "."%char.

Definition demo_empty_line_record : list LabelLine :=
  [demo_line (lit "24-06-01") 6; demo_line [] 9; demo_line (lit "Hello") 9].

(** The cell of the grid that is number [si] in row-major order, rows
    and columns counted from 1. *)
Definition cell_of (columns si : Z) : Z * Z := (si / columns + 1, si mod columns + 1).

(** * Properties *)

(** ** Strings *)

Lemma len_nonneg {A} (s : list A) : 0 <= len s.
Proof. unfold len; lia. Qed.

Lemma len_app {A} (s t : list A) : len (s ++ t) = len s + len t.
Proof. unfold len; rewrite length_app; lia. Qed.

Lemma len_cons {A} (c : A) (s : list A) : len (c :: s) = 1 + len s.
Proof. unfold len; simpl length; lia. Qed.

Lemma drop_while_length {A} (p : A -> bool) (s : list A) :
  (length (drop_while p s) <= length s)%nat.
Proof.
  induction s as [|c s IH]; simpl; [lia|].
  destruct (p c); simpl; lia.
Qed.

Lemma rstrip_length (s : str) : (length (rstrip s) <= length s)%nat.
Proof.
  unfold rstrip. rewrite length_rev.
  etransitivity; [apply drop_while_length|]. rewrite length_rev; lia.
Qed.

Lemma slice_length_le {A} (s : list A) (a m : Z) :
  0 <= a -> 0 <= m -> len (slice s a (a + m)) <= m.
Proof.
  intros Ha Hm. unfold slice, clip.
  assert (Hn := len_nonneg s).
  destruct (a <? 0) eqn:E1; [lia|].
  destruct (a + m <? 0) eqn:E2; [lia|].
  unfold len at 1. rewrite length_firstn. lia.
Qed.

Lemma slice_from_length_le {A} (s : list A) (a : Z) :
  (length (slice_from s a) <= length s)%nat.
Proof. unfold slice_from. rewrite length_skipn. lia. Qed.

(** ** [chunk_str] and [break_any] *)

Lemma range_nonpos (n : Z) : n <= 0 -> range n = [].
Proof. intros H. unfold range. replace (Z.to_nat n) with 0%nat by lia. reflexivity. Qed.

Lemma range_bounds (n i : Z) : In i (range n) -> 0 <= i < n.
Proof.
  unfold range. rewrite in_map_iff. intros (k & <- & Hk).
  apply in_seq in Hk. lia.
Qed.

Lemma ceil_div_neg (a b : Z) : 0 <= a -> b < 0 -> ceil_div a b <= 0.
Proof.
  intros Ha Hb. unfold ceil_div.
  assert (0 <= - a / b); [|lia].
  rewrite <- (Z.opp_involutive b) at 1.
  rewrite Z.div_opp_opp by lia.
  apply Z.div_pos; lia.
Qed.

(** Every chunk that [chunk_str] returns is at most [max_len] long. *)
Lemma chunk_str_length (cstr : str) (max_len : Z) (chunks : list str) :
  chunk_str cstr max_len = Ok chunks ->
  Forall (fun c => len c <= max_len) chunks.
Proof.
  unfold chunk_str. destruct (max_len =? 0) eqn:E0; [discriminate|].
  intros [= <-]. apply Z.eqb_neq in E0.
  destruct (Z_lt_le_dec max_len 0) as [Hneg|Hpos].
  - rewrite range_nonpos; [constructor|].
    apply ceil_div_neg; [apply len_nonneg | exact Hneg].
  - apply Forall_forall. intros c Hc. apply in_map_iff in Hc.
    destruct Hc as (idx & <- & Hidx). apply range_bounds in Hidx.
    set (piece := slice cstr (idx * max_len) (idx * max_len + max_len)).
    assert (Hpiece : len piece <= max_len) by (apply slice_length_le; nia).
    assert (Hr : len (rstrip piece) <= max_len).
    { pose proof (rstrip_length piece). unfold len in *. lia. }
    destruct (negb (idx =? 0) && startswith (rstrip piece) [space]); [|exact Hr].
    pose proof (slice_from_length_le (rstrip piece) 1). unfold len in *. lia.
Qed.

Lemma extend_each_acc (f : str -> res (list str)) (lines acc : list str) :
  extend_each f lines acc =
  (more <- extend_each f lines [] ;; Ok (acc ++ more)).
Proof.
  revert acc. induction lines as [|line rest IH]; intros acc; simpl.
  - now rewrite app_nil_r.
  - destruct (f line) as [more|e]; simpl; [|reflexivity].
    rewrite (IH (acc ++ more)), (IH more).
    destruct (extend_each f rest []) as [tl|e]; simpl; [|reflexivity].
    now rewrite app_assoc.
Qed.

Lemma extend_each_cons (f : str -> res (list str)) (line : str) (rest : list str) :
  extend_each f (line :: rest) [] =
  (first <- f line ;; more <- extend_each f rest [] ;; Ok (first ++ more)).
Proof.
  simpl. destruct (f line) as [first|e]; simpl; [|reflexivity].
  apply extend_each_acc.
Qed.

Lemma extend_each_app (f : str -> res (list str)) (l1 l2 : list str) :
  extend_each f (l1 ++ l2) [] =
  (a <- extend_each f l1 [] ;; b <- extend_each f l2 [] ;; Ok (a ++ b)).
Proof.
  induction l1 as [|line rest IH].
  - simpl. destruct (extend_each f l2 []); reflexivity.
  - rewrite <- app_comm_cons, !extend_each_cons.
    destruct (f line) as [first|e]; simpl; [|reflexivity].
    rewrite IH.
    destruct (extend_each f rest []) as [a|e]; simpl; [|reflexivity].
    destruct (extend_each f l2 []) as [b|e]; simpl; [|reflexivity].
    now rewrite app_assoc.
Qed.

Lemma extend_each_Forall (P : str -> Prop) (f : str -> res (list str)) :
  (forall line more, f line = Ok more -> Forall P more) ->
  forall fragments out, extend_each f fragments [] = Ok out -> Forall P out.
Proof.
  intros Hf fragments. induction fragments as [|line rest IH]; intros out.
  - intros [= <-]. constructor.
  - rewrite extend_each_cons.
    destruct (f line) as [first|e] eqn:E1; simpl; [|discriminate].
    destruct (extend_each f rest []) as [more|e] eqn:E2; simpl; [|discriminate].
    intros [= <-]. apply Forall_app. split; [eapply Hf; eauto | now apply IH].
Qed.

(** Every line of the hard-break strategy is at most [text_line_max_len]
    long. *)
Lemma break_any_length (label_meta : LabelMeta) (lines out : list str) :
  break_any label_meta lines = Ok out ->
  Forall (fun l => len l <= text_line_max_len label_meta) out.
Proof.
  apply extend_each_Forall. intros line more.
  destruct (len line <=? text_line_max_len label_meta) eqn:E.
  - intros [= <-]. constructor; [lia | constructor].
  - apply chunk_str_length.
Qed.

(** ** [textwrap]: the chunks *)

Lemma run_length_le (p : ascii -> bool) (s : str) : (run_length p s <= length s)%nat.
Proof.
  induction s as [|c s IH]; simpl; [lia|]. destruct (p c); lia.
Qed.

Lemma word_rest_le (before ahead : str) : (word_rest before ahead <= length ahead)%nat.
Proof.
  revert before. induction ahead as [|c ahead IH]; intros before; simpl; [lia|].
  destruct (is_hyphen c && letters_behind before && letters_ahead ahead); [lia|].
  destruct (is_ws c); [lia|].
  destruct (word_punct_behind before && emdash_ahead (c :: ahead)); [lia|].
  specialize (IH (c :: before)). lia.
Qed.

Lemma emdash_ahead_run (ahead : str) :
  emdash_ahead ahead = true -> (2 <= run_length is_hyphen ahead)%nat.
Proof.
  unfold emdash_ahead. intros H. apply andb_prop in H as [H _].
  now apply Nat.leb_le in H.
Qed.

(** A match is never empty and never runs past the end of the text. *)
Lemma match_len_bounds (before : str) (c : ascii) (ahead : str) :
  (1 <= match_len before (c :: ahead) <= length (c :: ahead))%nat.
Proof.
  unfold match_len.
  destruct (is_ws c).
  - pose proof (run_length_le is_ws ahead). simpl; lia.
  - destruct (word_punct_behind before && emdash_ahead (c :: ahead)) eqn:E.
    + apply andb_prop in E as [_ E]. apply emdash_ahead_run in E.
      pose proof (run_length_le is_hyphen (c :: ahead)). lia.
    + pose proof (word_rest_le (c :: before) ahead). simpl; lia.
Qed.

Lemma split_matches_concat (fuel : nat) (before ahead : str) :
  (length ahead <= fuel)%nat ->
  concat (split_matches fuel before ahead) = ahead.
Proof.
  revert before ahead. induction fuel as [|fuel IH]; intros before ahead Hfuel.
  - destruct ahead; [reflexivity | simpl in Hfuel; lia].
  - destruct ahead as [|c ahead]; [reflexivity|].
    cbn [split_matches concat].
    pose proof (match_len_bounds before c ahead) as Hn.
    rewrite IH.
    + apply firstn_skipn.
    + rewrite length_skipn. cbn [length] in *. lia.
Qed.

Lemma split_matches_nonempty (fuel : nat) (before ahead : str) :
  Forall (fun chunk => chunk <> []) (split_matches fuel before ahead).
Proof.
  revert before ahead. induction fuel as [|fuel IH]; intros before ahead.
  - constructor.
  - destruct ahead as [|c ahead]; [constructor|].
    cbn [split_matches]. constructor; [|apply IH].
    pose proof (match_len_bounds before c ahead) as Hn.
    destruct (match_len before (c :: ahead)); [lia | discriminate].
Qed.

(** The chunks of a text, put back together, are the text: [_split]
    never runs out of fuel and loses nothing. *)
Lemma split_concat (text : str) : concat (_split text) = text.
Proof. apply split_matches_concat. lia. Qed.

Lemma split_nonempty (text : str) : Forall (fun chunk => chunk <> []) (_split text).
Proof. apply split_matches_nonempty. Qed.

(** ** [textwrap]: the lines *)

Lemma total_cons (c : str) (chunks : list str) : total (c :: chunks) = len c + total chunks.
Proof. unfold total. simpl. apply len_app. Qed.

Lemma total_nonneg (chunks : list str) : 0 <= total chunks.
Proof. apply len_nonneg. Qed.

Lemma weight_cons (c : str) (chunks : list str) :
  weight (c :: chunks) = S (length c + weight chunks).
Proof. reflexivity. Qed.

Lemma weight_app (l1 l2 : list str) : weight (l1 ++ l2) = (weight l1 + weight l2)%nat.
Proof. induction l1 as [|c l1 IH]; simpl; [reflexivity|]. rewrite IH. lia. Qed.

(** What the inner loop does: it moves a prefix [moved] of the chunks to
    the line, and stops at the first chunk that does not fit. *)
Lemma fill_line_spec (width : Z) (chunks cur_line : list str) (cur_len : Z)
      (chunks' cur_line' : list str) (cur_len' : Z) :
  fill_line width chunks cur_line cur_len = (chunks', cur_line', cur_len') ->
  exists moved,
    chunks = moved ++ chunks' /\
    cur_line' = rev moved ++ cur_line /\
    cur_len' = cur_len + total moved /\
    (cur_len <= width -> cur_len' <= width) /\
    match chunks' with
    | [] => True
    | c :: _ => width < cur_len' + len c
    end.
Proof.
  revert cur_line cur_len. induction chunks as [|c below IH]; intros cur_line cur_len; simpl.
  - intros [= <- <- <-]. exists []. cbn. repeat split; lia.
  - destruct (cur_len + len c <=? width) eqn:E.
    + intros H. apply IH in H as (moved & -> & -> & -> & Hw & Hstop).
      exists (c :: moved). rewrite total_cons. simpl. rewrite <- app_assoc.
      apply Z.leb_le in E.
      split; [reflexivity|]. split; [reflexivity|]. split; [lia|].
      split; [intros _; apply Hw; lia|]. destruct chunks'; [exact I | lia].
    + intros [= <- <- <-]. exists []. cbn. apply Z.leb_gt in E. repeat split; lia.
Qed.

Lemma find_last_bounds (c : ascii) (s : str) (i found : Z) :
  find_last c s i found = found \/
  i <= find_last c s i found < i + len s.
Proof.
  revert i found. induction s as [|x s IH]; intros i found; simpl; [now left|].
  rewrite len_cons.
  destruct (IH (i + 1) (if Ascii.eqb x c then i else found)) as [-> | H].
  - destruct (Ascii.eqb x c); [right | left]; [pose proof (len_nonneg s); lia | reflexivity].
  - right. lia.
Qed.

Lemma clip_nonneg (n i : Z) : 0 <= i -> clip n i = Z.min i n.
Proof. intros H. unfold clip. destruct (i <? 0) eqn:E; [lia | reflexivity]. Qed.

Lemma slice_0 {A} (s : list A) (e : Z) :
  0 <= e -> slice s 0 e = firstn (Z.to_nat (Z.min e (len s))) s.
Proof.
  intros He. pose proof (len_nonneg s). unfold slice.
  rewrite !clip_nonneg by lia.
  replace (Z.min 0 (len s)) with 0 by lia. rewrite Z.sub_0_r. reflexivity.
Qed.

Lemma slice_0_length {A} (s : list A) (e : Z) :
  0 <= e -> len (slice s 0 e) = Z.min e (len s).
Proof.
  intros He. rewrite slice_0 by assumption.
  unfold len. rewrite length_firstn. lia.
Qed.

Lemma slice_from_length {A} (s : list A) (e : Z) :
  0 <= e -> len (slice_from s e) = len s - Z.min e (len s).
Proof.
  intros He. unfold slice_from. rewrite clip_nonneg by assumption.
  unfold len. rewrite length_skipn. lia.
Qed.

Lemma slice_0_app {A} (s : list A) (e : Z) :
  0 <= e -> slice s 0 e ++ slice_from s e = s.
Proof.
  intros He. rewrite slice_0 by assumption.
  unfold slice_from. rewrite clip_nonneg by assumption. apply firstn_skipn.
Qed.

Lemma rfind_bounds (s : str) (c : ascii) (hi : Z) :
  0 <= hi -> -1 <= rfind s c hi < hi.
Proof.
  intros Hhi. unfold rfind.
  pose proof (slice_0_length s hi Hhi) as Hl.
  destruct (find_last_bounds c (slice s 0 hi) 0 (-1)) as [-> | H]; lia.
Qed.

(** What [_handle_long_word] does to a chunk that is longer than the
    width: a piece of at most [width - cur_len] characters goes to the
    line and the rest of the chunk stays on the stack. *)
Lemma handle_long_word_spec (chunk : str) (below cur_line : list str) (cur_len width : Z) :
  1 <= width -> 0 <= cur_len <= width -> width < len chunk ->
  exists e,
    0 <= e <= width - cur_len /\
    (cur_len < width -> 1 <= e) /\
    _handle_long_word (chunk :: below) cur_line cur_len width =
      (slice_from chunk e :: below, slice chunk 0 e :: cur_line).
Proof.
  intros Hw Hc Hlong. unfold _handle_long_word.
  replace (width <? 1) with false by (symmetry; apply Z.ltb_ge; lia).
  replace (width - cur_len <? len chunk) with true by (symmetry; apply Z.ltb_lt; lia).
  pose proof (rfind_bounds chunk hyphen (width - cur_len)) as Hr.
  destruct ((0 <? rfind chunk hyphen (width - cur_len)) && _) eqn:E.
  - apply andb_prop in E as [E _]. apply Z.ltb_lt in E.
    eexists. split; [|split; [|reflexivity]]; lia.
  - eexists. split; [|split; [|reflexivity]]; lia.
Qed.

(** One pass of the outer loop: a blank chunk may be skipped, the chunks
    [moved] go to the line, and a chunk longer than the width gives the
    line a piece of itself. *)
Lemma wrap_step_spec (width : Z) (chunks lines chunks' lines' : list str) :
  1 <= width ->
  wrap_step width chunks lines = (chunks', lines') ->
  exists skipped moved,
    (skipped = [] \/
     exists top, skipped = [top] /\ is_blank top = true /\ lines <> []) /\
    total moved <= width /\
    ((chunks = skipped ++ moved ++ chunks' /\
      match chunks' with
      | [] => True
      | c :: _ => len c <= width /\ width < total moved + len c
      end /\
      lines' = append_line lines (drop_trailing_blank (rev moved)))
     \/
     (exists c below e,
        chunks = skipped ++ moved ++ c :: below /\
        width < len c /\
        0 <= e <= width - total moved /\
        (total moved < width -> 1 <= e) /\
        chunks' = slice_from c e :: below /\
        lines' = append_line lines (drop_trailing_blank (slice c 0 e :: rev moved)))).
Proof.
  intros Hw. unfold wrap_step.
  set (chunks0 := drop_leading_blank chunks lines).
  assert (Hskip : exists skipped,
             chunks = skipped ++ chunks0 /\
             (skipped = [] \/
              exists top, skipped = [top] /\ is_blank top = true /\ lines <> [])).
  { subst chunks0. unfold drop_leading_blank.
    destruct chunks as [|top below]; [exists []; split; [reflexivity | now left]|].
    destruct (is_blank top && negb (is_nil lines)) eqn:E.
    - apply andb_prop in E as [E1 E2]. exists [top]. split; [reflexivity|].
      right. exists top. repeat split; [assumption|].
      destruct lines; [discriminate | discriminate].
    - exists []. split; [reflexivity | now left]. }
  destruct Hskip as (skipped & Hchunks & Hskipped).
  destruct (fill_line width chunks0 [] 0) as [[chunks1 cur_line] cur_len] eqn:Hfill.
  apply fill_line_spec in Hfill as (moved & Hmoved & -> & -> & Hfit & Hstop).
  rewrite app_nil_r. rewrite Z.add_0_l in *.
  assert (Htotal : total moved <= width) by (apply Hfit; lia).
  destruct chunks1 as [|c below].
  - intros [= <- <-]. exists skipped, moved.
    split; [assumption|]. split; [assumption|]. left.
    split; [now rewrite Hchunks, Hmoved|]. split; [exact I | reflexivity].
  - destruct (width <? len c) eqn:Elong.
    + apply Z.ltb_lt in Elong.
      destruct (handle_long_word_spec c below (rev moved) (total moved) width)
        as (e & He & He1 & ->); try lia.
      { pose proof (total_nonneg moved). lia. }
      intros [= <- <-]. exists skipped, moved.
      split; [assumption|]. split; [assumption|]. right.
      exists c, below, e. repeat split; try lia. now rewrite Hchunks, Hmoved.
    + apply Z.ltb_ge in Elong.
      intros [= <- <-]. exists skipped, moved.
      split; [assumption|]. split; [assumption|]. left.
      split; [now rewrite Hchunks, Hmoved|]. split; [lia | reflexivity].
Qed.

(** *** The outer loop ends *)

Lemma wrap_step_weight (width : Z) (chunks lines chunks' lines' : list str) :
  1 <= width -> chunks <> [] ->
  wrap_step width chunks lines = (chunks', lines') ->
  (weight chunks' < weight chunks)%nat.
Proof.
  intros Hw Hne Hstep.
  apply wrap_step_spec in Hstep as (skipped & moved & Hskipped & Htotal & Hcase); [|assumption].
  destruct Hcase as [(-> & Hstop & _) | (c & below & e & -> & Hlong & He & He1 & -> & _)].
  - rewrite !weight_app.
    destruct Hskipped as [-> | (top & -> & _)]; [|simpl; lia].
    destruct moved as [|m moved]; [|simpl; lia].
    exfalso. destruct chunks' as [|c below]; [now apply Hne|].
    unfold total in Hstop. simpl in Hstop. change (len []) with 0 in Hstop. lia.
  - rewrite !weight_app, !weight_cons.
    pose proof (slice_from_length c e) as Hl. unfold len in Hl.
    destruct Hskipped as [-> | (top & -> & _)]; [|simpl; lia].
    destruct moved as [|m moved]; [|simpl; lia].
    unfold total in *; simpl in *. change (len []) with 0 in *. unfold len in *. lia.
Qed.

Lemma wrap_loop_terminates (width : Z) (fuel : nat) (chunks lines : list str) :
  1 <= width -> (weight chunks <= fuel)%nat ->
  exists out, wrap_loop fuel width chunks lines = Some out.
Proof.
  intros Hw. revert chunks lines. induction fuel as [|fuel IH]; intros chunks lines Hfuel.
  - destruct chunks; [eexists; reflexivity | simpl in Hfuel; lia].
  - destruct chunks as [|c below]; [eexists; reflexivity|].
    cbn [wrap_loop].
    destruct (wrap_step width (c :: below) lines) as [chunks' lines'] eqn:Hstep.
    apply IH. apply wrap_step_weight in Hstep; [lia | assumption | discriminate].
Qed.

(** With a width of at least 1, [wrap] returns a list of lines. *)
Lemma wrap_returns (text : str) (width : Z) :
  1 <= width -> exists out, wrap text width = Ok out.
Proof.
  intros Hw. unfold wrap, _wrap_chunks.
  replace (width <=? 0) with false by (symmetry; apply Z.leb_gt; lia).
  destruct (wrap_loop_terminates width (weight (_split_chunks text)) (_split_chunks text) [] Hw)
    as (out & ->); [lia|].
  now exists out.
Qed.

Lemma wrap_invalid_width (text : str) (width : Z) :
  width <= 0 -> wrap text width = Err (ValueError_invalid_width width).
Proof.
  intros Hw. unfold wrap, _wrap_chunks.
  now replace (width <=? 0) with true by (symmetry; apply Z.leb_le; lia).
Qed.

(** An invariant of the lines that holds at the start and that every pass
    keeps, holds of the lines that [wrap_loop] returns. *)
Lemma wrap_loop_ind (width : Z) (Inv : list str -> list str -> Prop) :
  (forall chunks lines chunks' lines',
      chunks <> [] -> Inv chunks lines ->
      wrap_step width chunks lines = (chunks', lines') -> Inv chunks' lines') ->
  forall fuel chunks lines out,
    Inv chunks lines ->
    wrap_loop fuel width chunks lines = Some out ->
    Inv [] out.
Proof.
  intros Hstep. induction fuel as [|fuel IH]; intros chunks lines out Hinv.
  - destruct chunks; [now intros [= <-] | discriminate].
  - destruct chunks as [|c below]; [now intros [= <-]|].
    cbn [wrap_loop].
    destruct (wrap_step width (c :: below) lines) as [chunks' lines'] eqn:E.
    apply IH. eapply Hstep; eauto. discriminate.
Qed.

(** *** No line is longer than the width *)

Lemma total_app (l1 l2 : list str) : total (l1 ++ l2) = total l1 + total l2.
Proof. unfold total. rewrite concat_app. apply len_app. Qed.

Lemma total_rev (l : list str) : total (rev l) = total l.
Proof.
  induction l as [|c l IH]; [reflexivity|].
  simpl rev. rewrite total_app, IH, !total_cons. unfold total; simpl; change (len []) with 0; lia.
Qed.

Lemma drop_trailing_blank_total (cur_line : list str) :
  total (drop_trailing_blank cur_line) <= total cur_line.
Proof.
  destruct cur_line as [|last front]; simpl; [lia|].
  destruct (is_blank last); [|lia].
  rewrite total_cons. pose proof (len_nonneg last). lia.
Qed.

Lemma append_line_Forall (P : str -> Prop) (lines cur_line : list str) :
  Forall P lines -> P (join (rev cur_line)) -> Forall P (append_line lines cur_line).
Proof.
  intros Hl Hc. destruct cur_line; [assumption|].
  apply Forall_app. split; [assumption | now constructor].
Qed.

Lemma wrap_step_width (width : Z) (chunks lines chunks' lines' : list str) :
  1 <= width ->
  Forall (fun l => len l <= width) lines ->
  wrap_step width chunks lines = (chunks', lines') ->
  Forall (fun l => len l <= width) lines'.
Proof.
  intros Hw Hlines Hstep.
  apply wrap_step_spec in Hstep as (skipped & moved & _ & Htotal & Hcase); [|assumption].
  destruct Hcase as [(_ & _ & ->) | (c & below & e & _ & Hlong & He & _ & _ & ->)];
    apply append_line_Forall; try assumption; unfold join; fold (total (rev (drop_trailing_blank (rev moved))));
    try fold (total (rev (drop_trailing_blank (slice c 0 e :: rev moved))));
    rewrite total_rev.
  - pose proof (drop_trailing_blank_total (rev moved)). rewrite total_rev in *. lia.
  - pose proof (drop_trailing_blank_total (slice c 0 e :: rev moved)) as H.
    rewrite total_cons, total_rev in H.
    pose proof (slice_0_length c e). lia.
Qed.

(** Every line that [wrap] returns is at most [width] long. *)
Lemma wrap_width (text : str) (width : Z) (out : list str) :
  wrap text width = Ok out -> Forall (fun l => len l <= width) out.
Proof.
  unfold wrap, _wrap_chunks. destruct (width <=? 0) eqn:Ew; [discriminate|].
  apply Z.leb_gt in Ew.
  destruct (wrap_loop _ _ _ _) as [lines|] eqn:Hloop; [|discriminate].
  intros [= <-].
  apply (wrap_loop_ind width (fun _ lines => Forall (fun l => len l <= width) lines))
    in Hloop; [assumption | | constructor].
  intros chunks lines0 chunks' lines' _ Hinv Hstep.
  eapply wrap_step_width; eauto. lia.
Qed.

(** The empty text has no lines. *)
Lemma wrap_empty (width : Z) : 1 <= width -> wrap [] width = Ok [].
Proof.
  intros Hw. unfold wrap, _wrap_chunks.
  now replace (width <=? 0) with false by (symmetry; apply Z.leb_gt; lia).
Qed.

(** ** The two strategies *)

Lemma extend_each_Err (f : str -> res (list str)) (lines acc : list str) (e : exn) :
  extend_each f lines acc = Err e -> exists line, In line lines /\ f line = Err e.
Proof.
  revert acc. induction lines as [|line rest IH]; intros acc; simpl; [discriminate|].
  destruct (f line) as [more|e'] eqn:E; simpl.
  - intros H. apply IH in H as (l & Hin & Hl). exists l. auto.
  - intros [= ->]. exists line. auto.
Qed.

Lemma wrap_errors (text : str) (width : Z) (e : exn) :
  textwrap.wrap text width = Err e -> e = ValueError_invalid_width width /\ width <= 0.
Proof.
  destruct (Z_le_gt_dec width 0) as [H|H].
  - rewrite wrap_invalid_width by assumption. intros [= <-]. auto.
  - destruct (wrap_returns text width) as (out & ->); [lia | discriminate].
Qed.

Lemma break_word_errors (label_meta : LabelMeta) (lines : list str) (e : exn) :
  break_word label_meta lines = Err e ->
  e = ValueError_invalid_width (text_line_max_len label_meta).
Proof.
  intros H. apply extend_each_Err in H as (line & _ & H).
  now apply wrap_errors in H.
Qed.

Lemma break_any_errors (label_meta : LabelMeta) (lines : list str) (e : exn) :
  break_any label_meta lines = Err e -> e = ZeroDivisionError.
Proof.
  intros H. apply extend_each_Err in H as (line & _ & H).
  destruct (len line <=? text_line_max_len label_meta); [discriminate|].
  unfold chunk_str in H. destruct (text_line_max_len label_meta =? 0); [|discriminate].
  now injection H.
Qed.

Lemma break_word_length (label_meta : LabelMeta) (lines out : list str) :
  break_word label_meta lines = Ok out ->
  Forall (fun l => len l <= text_line_max_len label_meta) out.
Proof.
  apply extend_each_Forall. intros line more. apply wrap_width.
Qed.

Lemma extend_each_returns (f : str -> res (list str)) (lines : list str) :
  (forall line, exists more, f line = Ok more) ->
  exists out, extend_each f lines [] = Ok out.
Proof.
  intros Hf. induction lines as [|line rest (out & IH)]; [now exists []|].
  rewrite extend_each_cons. destruct (Hf line) as (more & ->). simpl. rewrite IH. simpl.
  eexists; reflexivity.
Qed.

(** With a line length of at least 1 both strategies return lines. *)
Lemma break_word_returns (label_meta : LabelMeta) (lines : list str) :
  1 <= text_line_max_len label_meta -> exists out, break_word label_meta lines = Ok out.
Proof.
  intros H. apply extend_each_returns. intros line. now apply wrap_returns.
Qed.

Lemma break_any_returns (label_meta : LabelMeta) (lines : list str) :
  1 <= text_line_max_len label_meta -> exists out, break_any label_meta lines = Ok out.
Proof.
  intros H. apply extend_each_returns. intros line.
  destruct (len line <=? text_line_max_len label_meta); [eexists; reflexivity|].
  unfold chunk_str. replace (text_line_max_len label_meta =? 0) with false
    by (symmetry; apply Z.eqb_neq; lia).
  eexists; reflexivity.
Qed.

(** ** [LabelData.__init__] *)

(** C1.  In default mode the constructor raises 'Text too long' exactly
    when both the word-preserving wrap and the hard-break fallback of the
    caption's fragments give more than [max_text_lines] lines; and with a
    line length of 21 and 4 lines, a caption of five 21-character words
    separated by single spaces is refused. *)
Theorem text_too_long_iff_both_strategies_overflow :
  (forall (now : date) (url text : str) (label_meta : LabelMeta),
      LabelData_init false now url text label_meta = Err (ValueError_text_too_long text)
      <->
      exists by_word by_char,
        break_word label_meta (text_lines_of text) = Ok by_word /\
        break_any label_meta (text_lines_of text) = Ok by_char /\
        max_text_lines label_meta < len by_word /\
        max_text_lines label_meta < len by_char)
  /\
  LabelData_init false a_day a_url five_words avery_5160
  = Err (ValueError_text_too_long five_words).
Proof.
  split; [|vm_compute; reflexivity].
  intros now url text label_meta. unfold LabelData_init.
  set (fragments := text_lines_of text).
  split.
  - destruct (break_word label_meta fragments) as [by_word|e] eqn:Ew; cbn [bind].
    2:{ intros [= ->]. apply break_word_errors in Ew. discriminate. }
    destruct (max_text_lines label_meta <? len by_word) eqn:E1.
    + destruct (break_any label_meta fragments) as [by_char|e] eqn:Ea; cbn [bind].
      2:{ intros [= ->]. apply break_any_errors in Ea. discriminate. }
      destruct (max_text_lines label_meta <? len by_char) eqn:E2; [|discriminate].
      intros _. exists by_word, by_char. apply Z.ltb_lt in E1, E2. auto.
    + cbn [bind]. rewrite E1. discriminate.
  - intros (by_word & by_char & -> & Ha & H1 & H2). cbn [bind].
    apply Z.ltb_lt in H1, H2. rewrite H1, Ha. cbn [bind]. now rewrite H2.
Qed.

(** The last steps of the constructor, from the lines in use on. *)
Lemma LabelData_init_forced (now : date) (url caption : str) (label_meta : LabelMeta) :
  LabelData_init true now url caption label_meta =
  (by_char <- break_any label_meta (text_lines_of caption) ;;
   if max_text_lines label_meta <? len by_char
   then Err (ValueError_text_too_long caption)
   else Ok (record_of now url label_meta by_char)).
Proof.
  unfold LabelData_init, record_of.
  destruct (break_any label_meta (text_lines_of caption)) as [by_char|e]; cbn [bind];
    [|reflexivity].
  destruct (max_text_lines label_meta <? len by_char); [reflexivity|].
  destruct (include_timestamp label_meta); [reflexivity | now rewrite app_nil_r].
Qed.

Lemma LabelData_init_default (now : date) (url caption : str) (label_meta : LabelMeta)
      (by_word : list str) :
  break_word label_meta (text_lines_of caption) = Ok by_word ->
  LabelData_init false now url caption label_meta =
  if max_text_lines label_meta <? len by_word
  then LabelData_init true now url caption label_meta
  else Ok (record_of now url label_meta by_word).
Proof.
  intros Hw. unfold LabelData_init, record_of. rewrite Hw. cbn [bind].
  destruct (max_text_lines label_meta <? len by_word) eqn:E; [reflexivity|].
  cbn [bind]. rewrite E.
  destruct (include_timestamp label_meta); [reflexivity | now rewrite app_nil_r].
Qed.

(** C3.  In default mode, when the word-preserving wrap of the caption's
    fragments has more than [max_text_lines] lines, the constructor's
    result is decided by the hard-break strategy applied to the caption's
    original fragments [text_lines_of caption], and by nothing else: if
    [break_any] of the fragments gives at most [max_text_lines] lines, the
    constructor returns the record of exactly these lines (and the
    timestamp line); if it gives more, the constructor raises 'Text too
    long'; if it raises, so does the constructor.  The wrapped lines
    [by_word] appear nowhere in the result. *)
Theorem fallback_breaks_original_fragments
        (now : date) (url caption : str) (label_meta : LabelMeta) (by_word : list str) :
  break_word label_meta (text_lines_of caption) = Ok by_word ->
  max_text_lines label_meta < len by_word ->
  LabelData_init false now url caption label_meta =
  match break_any label_meta (text_lines_of caption) with
  | Ok by_char =>
      if max_text_lines label_meta <? len by_char
      then Err (ValueError_text_too_long caption)
      else Ok (record_of now url label_meta by_char)
  | Err e => Err e
  end.
Proof.
  intros Hw Hlong. rewrite (LabelData_init_default _ _ _ _ _ Hw).
  apply Z.ltb_lt in Hlong. rewrite Hlong. apply LabelData_init_forced.
Qed.

(** A caption of two fragments of three eleven-letter words each: the
    word-preserving wrap has six lines, too many; the two fragments break
    into two chunks each, and the record holds these four lines.  (The six
    wrapped lines broken again would stay six, and be refused.) *)
Lemma fallback_breaks_original_fragments_witness :
  text_lines_of two_fragments
  = map lit ["aaaaaaaaaaa bbbbbbbbbbb ccccccccccc";
             "ddddddddddd eeeeeeeeeee fffffffffff"]%string /\
  break_any avery_5160
    (map lit ["aaaaaaaaaaa"; "bbbbbbbbbbb"; "ccccccccccc";
              "ddddddddddd"; "eeeeeeeeeee"; "fffffffffff"]%string)
  = Ok (map lit ["aaaaaaaaaaa"; "bbbbbbbbbbb"; "ccccccccccc";
                 "ddddddddddd"; "eeeeeeeeeee"; "fffffffffff"]%string) /\
  LabelData_init false a_day a_url two_fragments avery_5160
  = Ok (record_of a_day a_url avery_5160
          (map lit ["aaaaaaaaaaa bbbbbbbbb"; "bb ccccccccccc";
                    "ddddddddddd eeeeeeeee"; "ee fffffffffff"]%string)).
Proof.
  split; [vm_compute; reflexivity|].
  split; [vm_compute; reflexivity|].
  etransitivity.
  - apply (fallback_breaks_original_fragments a_day a_url two_fragments avery_5160
             (map lit ["aaaaaaaaaaa"; "bbbbbbbbbbb"; "ccccccccccc";
                       "ddddddddddd"; "eeeeeeeeeee"; "fffffffffff"]%string)).
    + vm_compute. reflexivity.
    + vm_compute. reflexivity.
  - vm_compute. reflexivity.
Defined.

(** Breaking the already wrapped lines again would be another thing: for
    this caption the five wrapped lines stay five, too many, while the
    original fragment breaks into three chunks. *)
Example fallback_is_not_a_rewrap :
  break_word avery_5160 (text_lines_of eleven_letter_words)
  = Ok (map lit ["aaaaaaaaaaa"; "bbbbbbbbbbb"; "ccccccccccc"; "ddddddddddd"; "eeeeeeeeeee"]%string) /\
  break_any avery_5160
    (map lit ["aaaaaaaaaaa"; "bbbbbbbbbbb"; "ccccccccccc"; "ddddddddddd"; "eeeeeeeeeee"]%string)
  = Ok (map lit ["aaaaaaaaaaa"; "bbbbbbbbbbb"; "ccccccccccc"; "ddddddddddd"; "eeeeeeeeeee"]%string) /\
  break_any avery_5160 (text_lines_of eleven_letter_words)
  = Ok (map lit ["aaaaaaaaaaa bbbbbbbbb"; "bb ccccccccccc dddddd"; "ddddd eeeeeeeeeee"]%string) /\
  exists data,
    LabelData_init false a_day a_url eleven_letter_words avery_5160 = Ok data /\
    map text (lines data)
    = map lit ["aaaaaaaaaaa bbbbbbbbb"; "bb ccccccccccc dddddd"; "ddddd eeeeeeeeeee"; "24-06-01"]%string.
Proof.
  split; [vm_compute; reflexivity|].
  split; [vm_compute; reflexivity|].
  split; [vm_compute; reflexivity|].
  eexists. split; vm_compute; reflexivity.
Qed.

(** The lines that the constructor gives to the record. *)
Lemma LabelData_init_lines (break_on_any : bool) (now : date) (url caption : str)
      (label_meta : LabelMeta) (data : LabelData) :
  LabelData_init break_on_any now url caption label_meta = Ok data ->
  exists broken_lines,
    (break_any label_meta (text_lines_of caption) = Ok broken_lines \/
     break_on_any = false /\
     break_word label_meta (text_lines_of caption) = Ok broken_lines) /\
    len broken_lines <= max_text_lines label_meta /\
    lines data =
      map (fun line => {| text := line; font_name := font label_meta;
                          line_font_size := font_size label_meta |}) broken_lines
      ++ (if include_timestamp label_meta
          then [{| text := strftime_y_m_d now; font_name := font label_meta;
                   line_font_size := subtext_font_size label_meta |}]
          else []).
Proof.
  unfold LabelData_init.
  set (fragments := text_lines_of caption).
  set (choice := if break_on_any then _ else _).
  assert (Hchoice : forall broken_lines, choice = Ok broken_lines ->
            break_any label_meta fragments = Ok broken_lines \/
            break_on_any = false /\ break_word label_meta fragments = Ok broken_lines).
  { subst choice. intros broken_lines. destruct break_on_any; [now left|].
    destruct (break_word label_meta fragments) as [by_word|e]; cbn [bind]; [|discriminate].
    destruct (max_text_lines label_meta <? len by_word); [now left|].
    intros [= <-]. now right. }
  destruct choice as [broken_lines|e]; cbn [bind]; [|discriminate].
  destruct (max_text_lines label_meta <? len broken_lines) eqn:E; [discriminate|].
  apply Z.ltb_ge in E. intros [= <-]. exists broken_lines.
  split; [now apply Hchoice|]. split; [assumption|]. cbn [lines].
  destruct (include_timestamp label_meta); [reflexivity | now rewrite app_nil_r].
Qed.

(** C4, as stated, fails: the template avery-5160 asks for the timestamp
    line, and a caption of four fragments gives a record of five lines
    where [max_text_lines] is 4. *)
Lemma timestamp_line_exceeds_max_text_lines :
  exists data,
    LabelData_init false a_day a_url four_lines avery_5160 = Ok data /\
    len (lines data) = 5 /\
    max_text_lines avery_5160 = 4 /\
    ~ within_template avery_5160 data.
Proof.
  eexists. split; [vm_compute; reflexivity|].
  split; [reflexivity|]. split; [reflexivity|].
  intros [H _]. vm_compute in H. now apply H.
Qed.

(** C4, amended.  A constructed record is the record of the caption lines
    of the strategy in use: at most [max_text_lines] of them, each at most
    [text_line_max_len] long, followed by the timestamp line when the
    template asks for one, so it has at most [max_text_lines + 1] lines.
    When the lines of the strategy in use are more than [max_text_lines]
    the constructor raises 'Text too long'; when they are not, it returns
    that record. *)
Theorem caption_lines_within_template
        (break_on_any : bool) (now : date) (url caption : str) (label_meta : LabelMeta) :
  (forall data,
      LabelData_init break_on_any now url caption label_meta = Ok data ->
      exists caption_lines,
        lines_in_use break_on_any label_meta (text_lines_of caption) caption_lines /\
        data = record_of now url label_meta caption_lines /\
        len caption_lines <= max_text_lines label_meta /\
        Forall (fun l => len l <= text_line_max_len label_meta) caption_lines /\
        len (lines data) <=
          max_text_lines label_meta + (if include_timestamp label_meta then 1 else 0)) /\
  (forall caption_lines,
      lines_in_use break_on_any label_meta (text_lines_of caption) caption_lines ->
      max_text_lines label_meta < len caption_lines ->
      LabelData_init break_on_any now url caption label_meta
      = Err (ValueError_text_too_long caption)) /\
  (forall caption_lines,
      lines_in_use break_on_any label_meta (text_lines_of caption) caption_lines ->
      len caption_lines <= max_text_lines label_meta ->
      LabelData_init break_on_any now url caption label_meta
      = Ok (record_of now url label_meta caption_lines)).
Proof.
  assert (Hrun : forall caption_lines,
             lines_in_use break_on_any label_meta (text_lines_of caption) caption_lines ->
             LabelData_init break_on_any now url caption label_meta
             = if max_text_lines label_meta <? len caption_lines
               then Err (ValueError_text_too_long caption)
               else Ok (record_of now url label_meta caption_lines)).
  { intros caption_lines [[-> Ha] | [(-> & Hw & Hfit) | (-> & by_word & Hw & Hlong & Ha)]].
    - rewrite LabelData_init_forced, Ha. reflexivity.
    - rewrite (LabelData_init_default _ _ _ _ _ Hw).
      apply Z.ltb_ge in Hfit. now rewrite Hfit.
    - rewrite (LabelData_init_default _ _ _ _ _ Hw).
      apply Z.ltb_lt in Hlong. rewrite Hlong, LabelData_init_forced, Ha. reflexivity. }
  split; [|split].
  - intros data H.
    assert (Hsome : exists caption_lines,
               lines_in_use break_on_any label_meta (text_lines_of caption) caption_lines).
    { unfold lines_in_use. destruct break_on_any.
      - rewrite LabelData_init_forced in H.
        destruct (break_any label_meta (text_lines_of caption)) as [by_char|e];
          [|discriminate].
        exists by_char. now left.
      - destruct (break_word label_meta (text_lines_of caption)) as [by_word|e] eqn:Hw.
        + rewrite (LabelData_init_default _ _ _ _ _ Hw) in H.
          destruct (max_text_lines label_meta <? len by_word) eqn:E.
          * rewrite LabelData_init_forced in H.
            destruct (break_any label_meta (text_lines_of caption)) as [by_char|e];
              [|discriminate].
            exists by_char. right. right. split; [reflexivity|].
            exists by_word. apply Z.ltb_lt in E. auto.
          * exists by_word. right. left. apply Z.ltb_ge in E. auto.
        + unfold LabelData_init in H. rewrite Hw in H. discriminate. }
    destruct Hsome as (caption_lines & Huse).
    rewrite (Hrun _ Huse) in H.
    destruct (max_text_lines label_meta <? len caption_lines) eqn:E; [discriminate|].
    apply Z.ltb_ge in E. injection H as <-.
    exists caption_lines. split; [assumption|]. split; [reflexivity|].
    split; [assumption|]. split.
    + destruct Huse as [[_ Ha] | [(_ & Hw & _) | (_ & by_word & _ & _ & Ha)]];
        [eapply break_any_length | eapply break_word_length | eapply break_any_length];
        eassumption.
    + cbn [record_of lines]. rewrite len_app. unfold len in *. rewrite length_map.
      destruct (include_timestamp label_meta); simpl length; lia.
  - intros caption_lines Huse Hlong. rewrite (Hrun _ Huse).
    apply Z.ltb_lt in Hlong. now rewrite Hlong.
  - intros caption_lines Huse Hfit. rewrite (Hrun _ Huse).
    apply Z.ltb_ge in Hfit. now rewrite Hfit.
Qed.

(** At the caption of four fragments: the record is the record of the
    four lines [a], [b], [c], [d], which the word-preserving wrap gave. *)
Lemma caption_lines_within_template_witness :
  LabelData_init false a_day a_url four_lines avery_5160
  = Ok (record_of a_day a_url avery_5160 (map lit ["a"; "b"; "c"; "d"]%string)) /\
  exists caption_lines,
    lines_in_use false avery_5160 (text_lines_of four_lines) caption_lines /\
    record_of a_day a_url avery_5160 (map lit ["a"; "b"; "c"; "d"]%string)
    = record_of a_day a_url avery_5160 caption_lines /\
    len caption_lines <= max_text_lines avery_5160 /\
    Forall (fun l => len l <= text_line_max_len avery_5160) caption_lines /\
    len (lines (record_of a_day a_url avery_5160 (map lit ["a"; "b"; "c"; "d"]%string))) <=
      max_text_lines avery_5160 + (if include_timestamp avery_5160 then 1 else 0).
Proof.
  split; [vm_compute; reflexivity|].
  apply (proj1 (caption_lines_within_template false a_day a_url four_lines avery_5160)).
  vm_compute. reflexivity.
Defined.

(** With five fragments the wrapped lines are five, the hard-broken
    fragments too, and the constructor raises. *)
Example five_fragments_are_refused :
  lines_in_use false avery_5160 (text_lines_of (lit "a#%b#%c#%d#%e"))
               (map lit ["a"; "b"; "c"; "d"; "e"]%string) /\
  LabelData_init false a_day a_url (lit "a#%b#%c#%d#%e") avery_5160
  = Err (ValueError_text_too_long (lit "a#%b#%c#%d#%e")).
Proof.
  split; [|vm_compute; reflexivity].
  right. right. split; [reflexivity|].
  exists (map lit ["a"; "b"; "c"; "d"; "e"]%string).
  split; [vm_compute; reflexivity|]. split; [vm_compute; reflexivity|].
  vm_compute. reflexivity.
Qed.

(** The timestamp line is not held to the line length: in a template
    with a line length of 5 the record of [Hello] ends with the eight
    characters of the date. *)
Example timestamp_line_is_not_held_to_the_line_length :
  LabelData_init false a_day a_url (lit "Hello") short_line_template
  = Ok (record_of a_day a_url short_line_template [lit "Hello"]) /\
  map text (lines (record_of a_day a_url short_line_template [lit "Hello"]))
  = [lit "Hello"; lit "24-06-01"] /\
  text_line_max_len short_line_template = 5 /\
  len (lit "24-06-01") = 8.
Proof. repeat split; vm_compute; reflexivity. Qed.

(** ** Empty fragments *)

(** The word-preserving strategy drops an empty fragment. *)
Lemma break_word_drops_empty_fragment (label_meta : LabelMeta) (before after : list str) :
  1 <= text_line_max_len label_meta ->
  break_word label_meta (before ++ [] :: after) = break_word label_meta (before ++ after).
Proof.
  intros Hw. unfold break_word.
  rewrite !extend_each_app, extend_each_cons.
  rewrite wrap_empty by assumption. cbn [bind app].
  destruct (extend_each _ before []) as [a|e]; cbn [bind]; [|reflexivity].
  destruct (extend_each _ after []) as [b|e]; reflexivity.
Qed.

(** The hard-break strategy keeps it, as a line of its own. *)
Lemma break_any_keeps_empty_fragment (label_meta : LabelMeta) (before after : list str) :
  0 <= text_line_max_len label_meta ->
  break_any label_meta (before ++ [] :: after) =
  (a <- break_any label_meta before ;;
   b <- break_any label_meta after ;;
   Ok (a ++ [] :: b)).
Proof.
  intros Hw. unfold break_any.
  rewrite !extend_each_app, extend_each_cons.
  change (len []) with 0.
  replace (0 <=? text_line_max_len label_meta) with true by (symmetry; now apply Z.leb_le).
  cbn [bind app].
  destruct (extend_each _ before []) as [a|e]; cbn [bind]; [|reflexivity].
  destruct (extend_each _ after []) as [b|e]; reflexivity.
Qed.

(** C8 at the caption [Hello#%]: its fragments are [Hello] and the empty
    string; word-preserving wrap returns the one line [Hello], hard-break
    mode returns [Hello] and an empty line, and the record built in
    hard-break mode carries that empty line. *)
Theorem hard_break_keeps_empty_line :
  text_lines_of trailing_break = [lit "Hello"; []] /\
  break_word avery_5160 (text_lines_of trailing_break) = Ok [lit "Hello"] /\
  break_any avery_5160 (text_lines_of trailing_break) = Ok [lit "Hello"; []] /\
  exists data,
    LabelData_init true a_day a_url trailing_break avery_5160 = Ok data /\
    map text (lines data) = [lit "Hello"; []; lit "24-06-01"].
Proof.
  split; [vm_compute; reflexivity|].
  split; [vm_compute; reflexivity|].
  split; [vm_compute; reflexivity|].
  eexists. split; vm_compute; reflexivity.
Qed.

(** ** Leading spaces in hard-break mode *)

(** C2 at a caption of 21 letters, two spaces and a letter, with the line
    length 21: the second chunk is cut as [  b], loses one space and
    stays [ b], a line that begins with a space. *)
Theorem hard_break_leaves_leading_space :
  chunk_str two_spaces_at_the_cut 21 = Ok [lit "aaaaaaaaaaaaaaaaaaaaa"; lit " b"] /\
  break_any avery_5160 (text_lines_of two_spaces_at_the_cut)
  = Ok [lit "aaaaaaaaaaaaaaaaaaaaa"; lit " b"] /\
  exists data,
    LabelData_init true a_day a_url two_spaces_at_the_cut avery_5160 = Ok data /\
    map text (lines data) = [lit "aaaaaaaaaaaaaaaaaaaaa"; lit " b"; lit "24-06-01"].
Proof.
  split; [vm_compute; reflexivity|].
  split; [vm_compute; reflexivity|].
  eexists. split; vm_compute; reflexivity.
Qed.

(** ** A caption that fits on one line *)

Lemma drop_while_head {A} (p : A -> bool) (s : list A) (c : A) (r : list A) :
  drop_while p s = c :: r -> p c = false.
Proof.
  induction s as [|x s IH]; simpl; [discriminate|].
  destruct (p x) eqn:E; [assumption|]. now intros [= <- _].
Qed.

Lemma drop_while_split {A} (p : A -> bool) (s : list A) :
  exists dropped, s = dropped ++ drop_while p s /\ forallb p dropped = true.
Proof.
  induction s as [|x s (dropped & IH & Hd)]; [now exists []|].
  simpl. destruct (p x) eqn:E.
  - exists (x :: dropped). simpl. rewrite E, Hd. split; [now f_equal | reflexivity].
  - now exists [].
Qed.

(** [rstrip] removes a blank suffix, and what is left does not end in
    whitespace. *)
Lemma rstrip_split (s : str) :
  exists blanks, s = rstrip s ++ blanks /\ is_blank blanks = true.
Proof.
  unfold rstrip. destruct (drop_while_split isspace (rev s)) as (dropped & Hs & Hd).
  exists (rev dropped). split.
  - rewrite <- rev_app_distr, <- Hs. symmetry; apply rev_involutive.
  - unfold is_blank. rewrite forallb_forall in *. intros c Hc. apply Hd. now apply in_rev.
Qed.

Lemma rstrip_last (s front : str) (c : ascii) :
  rstrip s = front ++ [c] -> isspace c = false.
Proof.
  unfold rstrip. intros H. apply (f_equal (@rev ascii)) in H.
  rewrite rev_involutive, rev_app_distr in H. simpl in H.
  now apply drop_while_head in H.
Qed.

Lemma rstrip_Forall (P : ascii -> Prop) (s : str) : Forall P s -> Forall P (rstrip s).
Proof.
  intros H. destruct (rstrip_split s) as (blanks & Hs & _).
  rewrite Hs in H. now apply Forall_app in H.
Qed.

Lemma plain_spacesb_ok (s : str) : plain_spacesb s = true -> plain_spaces s.
Proof.
  unfold plain_spacesb, plain_spaces. rewrite forallb_forall, Forall_forall.
  intros H c Hin Hc. apply H in Hin. rewrite Hc in Hin. now apply Ascii.eqb_eq.
Qed.

Lemma expandtabs_plain (tabsize column : nat) (s : str) :
  plain_spaces s -> expandtabs_from tabsize column s = s.
Proof.
  revert column. induction s as [|c s IH]; intros column Hs; [reflexivity|].
  inversion Hs as [|? ? Hc Hs']; subst. simpl.
  destruct (Ascii.eqb c tab) eqn:E.
  - apply Ascii.eqb_eq in E. subst c. discriminate (Hc eq_refl).
  - now rewrite IH.
Qed.

Lemma translate_plain (s : str) : plain_spaces s -> translate_whitespace s = s.
Proof.
  unfold translate_whitespace. induction 1 as [|c s Hc Hs IH]; [reflexivity|].
  simpl. rewrite IH. destruct (is_ws c); [now rewrite Hc | reflexivity].
Qed.

Lemma munge_plain (s : str) : plain_spaces s -> _munge_whitespace s = s.
Proof.
  intros H. unfold _munge_whitespace, expandtabs.
  now rewrite expandtabs_plain, translate_plain.
Qed.

Lemma fill_line_all (width : Z) (chunks cur_line : list str) (cur_len : Z) :
  cur_len + total chunks <= width ->
  fill_line width chunks cur_line cur_len
  = ([], rev chunks ++ cur_line, cur_len + total chunks).
Proof.
  revert cur_line cur_len. induction chunks as [|c below IH]; intros cur_line cur_len H.
  - cbn. unfold total; simpl. change (len []) with 0. now rewrite Z.add_0_r.
  - rewrite total_cons in H. pose proof (total_nonneg below). simpl.
    replace (cur_len + len c <=? width) with true by (symmetry; apply Z.leb_le; lia).
    rewrite IH by lia. rewrite <- app_assoc, total_cons. simpl. f_equal. lia.
Qed.

Lemma wrap_loop_nil (fuel : nat) (width : Z) (lines : list str) :
  wrap_loop fuel width [] lines = Some lines.
Proof. destruct fuel; reflexivity. Qed.

Lemma is_blank_last (front : str) (c : ascii) :
  isspace c = false -> is_blank (front ++ [c]) = false.
Proof.
  intros H. unfold is_blank. rewrite forallb_app. simpl. rewrite H.
  now rewrite andb_false_r.
Qed.

(** A text that fits the width and does not end in whitespace is wrapped
    to itself. *)
Lemma wrap_fits (t : str) (width : Z) :
  plain_spaces t -> t <> [] -> (forall front c, t = front ++ [c] -> isspace c = false) ->
  len t <= width ->
  wrap t width = Ok [t].
Proof.
  intros Hplain Hne Hend Hfit.
  assert (Hlen : 1 <= len t).
  { destruct t; [now elim Hne | rewrite len_cons; pose proof (len_nonneg t); lia]. }
  unfold wrap, _wrap_chunks, _split_chunks. rewrite munge_plain by assumption.
  replace (width <=? 0) with false by (symmetry; apply Z.leb_gt; lia).
  pose proof (split_concat t) as Hcat. pose proof (split_nonempty t) as Hchunks.
  set (chunks := _split t) in *. clearbody chunks.
  destruct (exists_last (l := chunks)) as (front & last & Hlast).
  { intros E. rewrite E in Hcat. simpl in Hcat. now subst t. }
  assert (Hstep : wrap_step width chunks [] = ([], [t])).
  { unfold wrap_step.
    assert (Hd : drop_leading_blank chunks [] = chunks).
    { unfold drop_leading_blank. destruct chunks; [reflexivity|]. cbn. now rewrite andb_false_r. }
    rewrite Hd, fill_line_all by (unfold total; rewrite Hcat; lia).
    rewrite app_nil_r. cbv iota beta. rewrite Hlast at 1. rewrite rev_app_distr. cbn [rev app].
    assert (Hb : is_blank last = false).
    { rewrite Hlast in Hchunks. apply Forall_app in Hchunks as [_ Hl].
      apply Forall_inv in Hl.
      destruct (exists_last Hl) as (l' & c & ->).
      apply is_blank_last. apply (Hend (concat front ++ l')).
      rewrite <- Hcat, Hlast, concat_app. simpl. now rewrite app_nil_r, app_assoc. }
    unfold drop_trailing_blank. rewrite Hb. unfold append_line, join.
    cbn [app]. f_equal. f_equal.
    change (last :: rev front) with ([last] ++ rev front).
    rewrite rev_app_distr, rev_involutive. cbn [rev app]. now rewrite <- Hlast. }
  destruct chunks as [|c below] eqn:Ec.
  - destruct front; discriminate.
  - rewrite weight_cons. cbn [wrap_loop]. rewrite Hstep, wrap_loop_nil. reflexivity.
Qed.

(** C6, as stated, fails: the empty caption is within every line length
    and wraps to no line at all, where the claim has one line. *)
Lemma empty_caption_has_no_line :
  len (@nil ascii) <= text_line_max_len avery_5160 /\
  break_word avery_5160 (text_lines_of []) = Ok [] /\
  break_word avery_5160 (text_lines_of []) <> Ok [rstrip []].
Proof.
  split; [vm_compute; discriminate|].
  split; [vm_compute; reflexivity|].
  vm_compute. discriminate.
Qed.

(** C6, amended.  A caption that is at most [text_line_max_len] long,
    has no line-break token, no whitespace character but the plain space
    and something left after right-trimming, wraps to exactly one line,
    the right-trimmed caption. *)
Theorem short_caption_is_one_line (label_meta : LabelMeta) (caption : str) :
  contains _line_break caption = false ->
  plain_spaces caption ->
  rstrip caption <> [] ->
  len caption <= text_line_max_len label_meta ->
  break_word label_meta (text_lines_of caption) = Ok [rstrip caption].
Proof.
  intros Hbreak Hplain Hne Hfit.
  unfold text_lines_of. rewrite Hbreak.
  unfold break_word. rewrite extend_each_cons.
  rewrite wrap_fits; [reflexivity | | assumption | | ].
  - now apply rstrip_Forall.
  - intros front c. apply rstrip_last.
  - pose proof (rstrip_length caption). unfold len in *. lia.
Qed.

Lemma short_caption_is_one_line_witness :
  break_word avery_5160 (text_lines_of hello_world) = Ok [lit "Hello World"].
Proof.
  apply (short_caption_is_one_line avery_5160 hello_world).
  - reflexivity.
  - apply plain_spacesb_ok. vm_compute. reflexivity.
  - vm_compute. discriminate.
  - vm_compute. discriminate.
Defined.

(** ** Words *)

Section Fields.

Variable p : ascii -> bool.

Lemma fields_from_sep (cur s1 : str) (c : ascii) (s2 : str) :
  p c = true ->
  fields_from p cur (s1 ++ c :: s2) = fields_from p cur s1 ++ fields p s2.
Proof.
  intros Hc. revert cur. induction s1 as [|x s1 IH]; intros cur; simpl.
  - now rewrite Hc.
  - destruct (p x); [|apply IH]. rewrite IH. now rewrite app_assoc.
Qed.

Lemma fields_blank_prefix (a b : str) :
  forallb p a = true -> fields p (a ++ b) = fields p b.
Proof.
  unfold fields. induction a as [|x a IH]; simpl; [reflexivity|].
  intros H. apply andb_prop in H as [Hx Ha]. rewrite Hx. now apply IH.
Qed.

Lemma fields_blank (a : str) : forallb p a = true -> fields p a = [].
Proof.
  intros H. rewrite <- (app_nil_r a). now rewrite fields_blank_prefix.
Qed.

Lemma fields_from_blank_suffix (cur a b : str) :
  forallb p b = true -> fields_from p cur (a ++ b) = fields_from p cur a.
Proof.
  destruct b as [|c b]; [now rewrite app_nil_r|].
  simpl. intros H. apply andb_prop in H as [Hc Hb].
  rewrite fields_from_sep by assumption. rewrite fields_blank by assumption.
  apply app_nil_r.
Qed.

Lemma fields_cons_sep (c : ascii) (s : str) : p c = true -> fields p (c :: s) = fields p s.
Proof. intros H. unfold fields. simpl. now rewrite H. Qed.

(** A text splits where a separator stands. *)
Lemma fields_app (a b : str) :
  forallb p a = true \/ b = [] \/ (exists c b', b = c :: b' /\ p c = true) ->
  fields p (a ++ b) = fields p a ++ fields p b.
Proof.
  intros [Ha | [-> | (c & b' & -> & Hc)]].
  - now rewrite fields_blank_prefix, (fields_blank a).
  - now rewrite !app_nil_r.
  - unfold fields at 1. rewrite fields_from_sep by assumption.
    now rewrite (fields_cons_sep c b').
Qed.

Lemma fields_from_word (cur s : str) :
  forallb (fun c => negb (p c)) s = true ->
  fields_from p cur s = flush (rev s ++ cur).
Proof.
  revert cur. induction s as [|c s IH]; intros cur; simpl; [reflexivity|].
  intros H. apply andb_prop in H as [Hc Hs]. apply negb_true_iff in Hc. rewrite Hc.
  rewrite IH by assumption. now rewrite <- app_assoc.
Qed.

Lemma fields_word (s : str) :
  s <> [] -> forallb (fun c => negb (p c)) s = true -> fields p s = [s].
Proof.
  intros Hne H. unfold fields. rewrite fields_from_word by assumption.
  rewrite app_nil_r. destruct (rev s) eqn:E.
  - apply (f_equal (@rev ascii)) in E. rewrite rev_involutive in E. now elim Hne.
  - unfold flush. rewrite <- E. now rewrite rev_involutive.
Qed.

Lemma separated_tail (c : str) (chunks : list str) :
  separated p (c :: chunks) -> separated p chunks.
Proof. destruct chunks; [trivial | now intros [_ H]]. Qed.

Lemma separated_app (l1 l2 : list str) :
  separated p (l1 ++ l2) -> separated p l1 /\ separated p l2.
Proof.
  induction l1 as [|c l1 IH]; [now split|].
  intros H. pose proof (separated_tail _ _ H) as Ht. apply IH in Ht as [H1 H2].
  split; [|assumption].
  destruct l1 as [|c2 l1]; [exact I|]. split; [apply H | assumption].
Qed.

Lemma separated_cons_spacer (c : str) (chunks : list str) :
  spacer p c -> separated p chunks -> separated p (c :: chunks).
Proof. intros Hc Hs. destruct chunks; [exact I|]. split; [now left | assumption]. Qed.

(** The fields of separated p chunks are the fields of each chunk. *)
Lemma fields_concat (chunks : list str) :
  separated p chunks -> fields p (concat chunks) = flat_map (fields p) chunks.
Proof.
  induction chunks as [|c1 rest IH]; [reflexivity|].
  intros H. simpl. rewrite <- IH by (eapply separated_tail; eauto).
  apply fields_app.
  destruct rest as [|c2 rest]; [right; now left|].
  destruct H as [[[_ H1] | [H2 Hb]] _]; [now left|].
  right; right. destruct c2 as [|x c2]; [now elim H2|].
  simpl in Hb. apply andb_prop in Hb as [Hx _].
  exists x, (c2 ++ concat rest). now split.
Qed.

End Fields.

Lemma spacer_weaken (p q : ascii -> bool) (c : str) :
  (forall x, p x = true -> q x = true) -> spacer p c -> spacer q c.
Proof.
  intros Hpq [Hne Hp]. split; [assumption|].
  rewrite forallb_forall in *. auto.
Qed.

Lemma separated_weaken (p q : ascii -> bool) (chunks : list str) :
  (forall x, p x = true -> q x = true) -> separated p chunks -> separated q chunks.
Proof.
  intros Hpq. induction chunks as [|c1 rest IH]; [trivial|].
  destruct rest as [|c2 rest]; [trivial|].
  intros [H Hs]. split; [|now apply IH].
  destruct H; [left | right]; eapply spacer_weaken; eauto.
Qed.

(** Joining lines with single spaces keeps the words of each line. *)
Lemma words_join_with_space (lines : list str) :
  words (join_with [space] lines) = flat_map words lines.
Proof.
  induction lines as [|a rest IH]; [reflexivity|].
  destruct rest as [|b rest]; [simpl; now rewrite app_nil_r|].
  change (join_with [space] (a :: b :: rest))
    with (a ++ space :: join_with [space] (b :: rest)).
  unfold words in *. rewrite fields_app.
  - rewrite fields_cons_sep by reflexivity. rewrite IH. reflexivity.
  - right; right. eexists _, _. split; reflexivity.
Qed.

Lemma is_hyphen_false (c : ascii) : c <> hyphen -> is_hyphen c = false.
Proof. intros H. unfold is_hyphen. now apply Ascii.eqb_neq. Qed.

Lemma no_hyphen_cons (c : ascii) (s : str) :
  no_hyphen (c :: s) -> c <> hyphen /\ no_hyphen s.
Proof.
  unfold no_hyphen. intros H. split.
  - intros ->. apply H. now left.
  - intros Hin. apply H. now right.
Qed.

Lemma no_hyphen_skipn (n : nat) (s : str) : no_hyphen s -> no_hyphen (skipn n s).
Proof.
  unfold no_hyphen. intros H Hin. apply H.
  rewrite <- (firstn_skipn n s). apply in_or_app. now right.
Qed.

(** *** The chunks of a text without hyphens: whitespace runs and words
    in turn *)

Lemma word_rest_no_hyphen (before ahead : str) :
  no_hyphen ahead -> word_rest before ahead = run_length not_ws ahead.
Proof.
  revert before. induction ahead as [|c ahead IH]; intros before H; [reflexivity|].
  apply no_hyphen_cons in H as [Hc H]. simpl.
  rewrite (is_hyphen_false c Hc). cbn [andb].
  unfold not_ws at 1. destruct (is_ws c); [reflexivity|].
  unfold emdash_ahead. simpl run_length. rewrite (is_hyphen_false c Hc).
  cbn [Nat.leb andb]. rewrite andb_false_r. cbn [negb]. f_equal. now apply IH.
Qed.

Lemma match_len_no_hyphen (before : str) (c : ascii) (ahead : str) :
  no_hyphen (c :: ahead) ->
  match_len before (c :: ahead) =
  S (run_length (if is_ws c then is_ws else not_ws) ahead).
Proof.
  intros H. pose proof H as H0. apply no_hyphen_cons in H as [Hc H].
  unfold match_len. destruct (is_ws c); [reflexivity|].
  unfold emdash_ahead. simpl run_length. rewrite (is_hyphen_false c Hc).
  cbn [Nat.leb andb]. rewrite andb_false_r. f_equal. now apply word_rest_no_hyphen.
Qed.

Lemma run_firstn (q : ascii -> bool) (s : str) :
  forallb q (firstn (run_length q s) s) = true.
Proof.
  induction s as [|c s IH]; [reflexivity|]. simpl.
  destruct (q c) eqn:E; [|reflexivity]. simpl. now rewrite E.
Qed.

Lemma run_skipn (q : ascii -> bool) (s : str) :
  match skipn (run_length q s) s with
  | c :: _ => q c = false
  | [] => True
  end.
Proof.
  induction s as [|c s IH]; [exact I|]. simpl.
  destruct (q c) eqn:E; [exact IH | exact E].
Qed.

Lemma split_matches_nil (fuel : nat) (before : str) : split_matches fuel before [] = [].
Proof. destruct fuel; reflexivity. Qed.

Lemma split_matches_shape (fuel : nat) (before ahead : str) :
  no_hyphen ahead ->
  separated is_ws (split_matches fuel before ahead) /\
  Forall (fun c => spacer is_ws c \/ word_chunk c) (split_matches fuel before ahead) /\
  (forall x rest, ahead = x :: rest -> is_ws x = true ->
     match split_matches fuel before ahead with
     | c :: _ => spacer is_ws c
     | [] => True
     end).
Proof.
  revert before ahead. induction fuel as [|fuel IH]; intros before ahead Hno.
  - cbn. repeat split; auto.
  - destruct ahead as [|x rest]; [cbn; repeat split; auto|].
    cbn [split_matches]. rewrite match_len_no_hyphen by assumption.
    set (q := if is_ws x then is_ws else not_ws).
    assert (Hq : q x = true).
    { subst q. unfold not_ws. destruct (is_ws x) eqn:E; [assumption | now rewrite E]. }
    cbn [firstn skipn].
    set (chunk := x :: firstn (run_length q rest) rest).
    assert (Hchunk : forallb q chunk = true).
    { subst chunk. simpl. rewrite Hq. apply run_firstn. }
    apply no_hyphen_cons in Hno as [_ Hno].
    specialize (IH (rev chunk ++ before) (skipn (run_length q rest) rest)
                   (no_hyphen_skipn _ _ Hno)) as (IHs & IHf & IHh).
    destruct (is_ws x) eqn:Ex.
    + assert (Hsp : spacer is_ws chunk) by (split; [discriminate | exact Hchunk]).
      split; [now apply separated_cons_spacer|].
      split; [constructor; [now left | assumption]|].
      intros _ _ _ _. exact Hsp.
    + assert (Hw : word_chunk chunk) by (split; [discriminate | exact Hchunk]).
      split; [|split; [constructor; [now right | assumption]|]].
      * pose proof (run_skipn q rest) as Hnext.
        destruct (skipn (run_length q rest) rest) as [|y rest'] eqn:Es.
        { rewrite split_matches_nil. exact I. }
        specialize (IHh y rest' eq_refl).
        destruct (split_matches fuel _ (y :: rest')) as [|c2 more]; [exact I|].
        split; [|assumption]. right. apply IHh.
        subst q. unfold not_ws in Hnext. now apply negb_false_iff in Hnext.
      * intros x0 rest0 [= <- <-] Hx0. rewrite Ex in Hx0. discriminate.
Qed.

(** *** [_munge_whitespace] keeps the words *)

Section Munge.

Variable p : ascii -> bool.
Hypothesis p_ws : forall c, is_ws c = true -> p c = true.

Lemma p_space : p space = true.
Proof. now apply p_ws. Qed.

Lemma p_tab : p tab = true.
Proof. now apply p_ws. Qed.

Lemma fields_from_spaces (cur : str) (n : nat) (s : str) :
  fields_from p cur (repeat space (S n) ++ s) = flush cur ++ fields p s.
Proof.
  simpl. rewrite p_space. f_equal.
  apply (fields_blank_prefix p (repeat space n) s).
  induction n; [reflexivity|]. simpl. now rewrite p_space.
Qed.

Lemma fields_from_expandtabs (tabsize column : nat) (cur s : str) :
  (0 < tabsize)%nat ->
  fields_from p cur (expandtabs_from tabsize column s) = fields_from p cur s.
Proof.
  intros Ht. revert column cur. induction s as [|c s IH]; intros column cur; [reflexivity|].
  simpl. destruct (Ascii.eqb c tab) eqn:E.
  - apply Ascii.eqb_eq in E. subst c. rewrite p_tab.
    replace (0 <? tabsize)%nat with true by (symmetry; now apply Nat.ltb_lt).
    pose proof (Nat.mod_upper_bound column tabsize).
    destruct (tabsize - column mod tabsize)%nat as [|n] eqn:En; [lia|].
    rewrite fields_from_spaces. unfold fields. now rewrite IH.
  - simpl. destruct (p c); now rewrite IH.
Qed.

Lemma fields_from_translate (cur s : str) :
  fields_from p cur (translate_whitespace s) = fields_from p cur s.
Proof.
  unfold translate_whitespace. revert cur. induction s as [|c s IH]; intros cur; [reflexivity|].
  simpl. destruct (is_ws c) eqn:E.
  - rewrite p_space, (p_ws c E). now rewrite IH.
  - destruct (p c); now rewrite IH.
Qed.

Lemma fields_munge (s : str) : fields p (_munge_whitespace s) = fields p s.
Proof.
  unfold fields, _munge_whitespace, expandtabs.
  rewrite fields_from_translate. apply fields_from_expandtabs. lia.
Qed.

End Munge.

Lemma is_ws_isspace (c : ascii) : is_ws c = true -> isspace c = true.
Proof.
  unfold is_ws, _whitespace. simpl. rewrite !orb_false_r.
  intros H. repeat (apply orb_prop in H as [H | H]);
    apply Ascii.eqb_eq in H; subst c; reflexivity.
Qed.

Lemma in_expandtabs (tabsize column : nat) (s : str) (c : ascii) :
  In c (expandtabs_from tabsize column s) -> c = space \/ In c s.
Proof.
  revert column. induction s as [|x s IH]; intros column; simpl; [tauto|].
  destruct (Ascii.eqb x tab).
  - destruct (0 <? tabsize)%nat.
    + intros H. apply in_app_or in H as [H | H].
      * apply repeat_spec in H. now left.
      * apply IH in H. tauto.
    + intros H. apply IH in H. tauto.
  - intros [-> | H]; [tauto|]. apply IH in H. tauto.
Qed.

Lemma in_translate (s : str) (c : ascii) :
  In c (translate_whitespace s) -> c = space \/ In c s.
Proof.
  unfold translate_whitespace. rewrite in_map_iff.
  intros (x & <- & Hx). destruct (is_ws x); [now left | now right].
Qed.

Lemma no_hyphen_munge (s : str) : no_hyphen s -> no_hyphen (_munge_whitespace s).
Proof.
  unfold no_hyphen, _munge_whitespace, expandtabs. intros H Hin.
  apply in_translate in Hin as [Hin | Hin]; [discriminate|].
  apply in_expandtabs in Hin as [Hin | Hin]; [discriminate | auto].
Qed.

(** *** The outer loop keeps the words *)

Lemma words_blank (c : str) : is_blank c = true -> words c = [].
Proof. apply fields_blank. Qed.

Lemma is_blank_firstn (n : nat) (c : str) : is_blank c = true -> is_blank (firstn n c) = true.
Proof.
  unfold is_blank. rewrite !forallb_forall. intros H x Hx. apply H.
  rewrite <- (firstn_skipn n c). apply in_or_app. now left.
Qed.

Lemma is_blank_skipn (n : nat) (c : str) : is_blank c = true -> is_blank (skipn n c) = true.
Proof.
  unfold is_blank. rewrite !forallb_forall. intros H x Hx. apply H.
  rewrite <- (firstn_skipn n c). apply in_or_app. now right.
Qed.

Lemma words_concat (chunks : list str) :
  separated isspace chunks -> words (concat chunks) = flat_map words chunks.
Proof. apply fields_concat. Qed.

Lemma append_line_words (lines cur_line : list str) :
  separated isspace (rev cur_line) ->
  flat_map words (append_line lines cur_line)
  = flat_map words lines ++ flat_map words (rev cur_line).
Proof.
  intros Hs. destruct cur_line as [|last front]; [simpl; now rewrite app_nil_r|].
  unfold append_line, join. rewrite flat_map_app. simpl flat_map at 2.
  rewrite app_nil_r. now rewrite words_concat.
Qed.

(** The line made of the chunks [moved], its last chunk dropped when
    blank, has the words of [moved]. *)
Lemma line_words (lines moved : list str) :
  separated isspace moved ->
  flat_map words (append_line lines (drop_trailing_blank (rev moved)))
  = flat_map words lines ++ flat_map words moved.
Proof.
  intros Hs. destruct (rev moved) as [|last front] eqn:E.
  - apply (f_equal (@rev str)) in E. rewrite rev_involutive in E. subst moved.
    simpl. now rewrite app_nil_r.
  - apply (f_equal (@rev str)) in E. rewrite rev_involutive in E. simpl in E. subst moved.
    unfold drop_trailing_blank. destruct (is_blank last) eqn:Eb.
    + apply separated_app in Hs as [Hs _].
      rewrite append_line_words by assumption.
      rewrite flat_map_app. simpl. rewrite (words_blank last Eb). now rewrite !app_nil_r.
    + rewrite append_line_words by assumption. reflexivity.
Qed.

Lemma line_words_long (lines moved : list str) (piece : str) :
  separated isspace moved -> is_blank piece = true ->
  flat_map words (append_line lines (drop_trailing_blank (piece :: rev moved)))
  = flat_map words lines ++ flat_map words moved.
Proof.
  intros Hs Hb. unfold drop_trailing_blank. rewrite Hb.
  rewrite append_line_words by (now rewrite rev_involutive).
  now rewrite rev_involutive.
Qed.

Section Words.

Variable width : Z.
Hypothesis width_pos : 1 <= width.

Lemma stack_ok_app (l1 l2 : list str) : stack_ok width (l1 ++ l2) -> stack_ok width l1 /\ stack_ok width l2.
Proof.
  intros [Hs Hf]. apply separated_app in Hs as [Hs1 Hs2].
  apply Forall_app in Hf as [Hf1 Hf2]. now repeat split.
Qed.

Lemma flat_map_words_blank (skipped : list str) :
  (skipped = [] \/ exists top, skipped = [top] /\ is_blank top = true) ->
  flat_map words skipped = [].
Proof.
  intros [-> | (top & -> & H)]; [reflexivity|].
  simpl. now rewrite words_blank.
Qed.

Lemma wrap_step_words (chunks lines chunks' lines' : list str) :
  stack_ok width chunks ->
  wrap_step width chunks lines = (chunks', lines') ->
  stack_ok width chunks' /\
  flat_map words lines' ++ flat_map words chunks'
  = flat_map words lines ++ flat_map words chunks.
Proof.
  intros Hok Hstep.
  apply wrap_step_spec in Hstep as (skipped & moved & Hskipped & Htotal & Hcase);
    [|exact width_pos].
  assert (Hsk : flat_map words skipped = []).
  { apply flat_map_words_blank. destruct Hskipped as [-> | (top & -> & Hb & _)]; eauto. }
  destruct Hcase as [(-> & _ & ->) | (c & below & e & -> & Hlong & He & _ & -> & ->)].
  - apply stack_ok_app in Hok as [_ Hok]. apply stack_ok_app in Hok as [Hm Hok].
    split; [assumption|].
    rewrite line_words by apply Hm.
    rewrite !flat_map_app, Hsk. now rewrite <- app_assoc.
  - apply stack_ok_app in Hok as [_ Hok]. apply stack_ok_app in Hok as [Hm [Hs Hf]].
    pose proof (Forall_inv Hf) as [Hne Hfit]. cbn beta in Hfit.
    assert (Hb : is_blank c = true).
    { destruct (is_blank c); [reflexivity|]. specialize (Hfit eq_refl). exfalso. lia. }
    pose proof (total_nonneg moved) as Hmoved.
    assert (Hrest : is_blank (slice_from c e) = true) by (now apply is_blank_skipn).
    assert (Hpiece : is_blank (slice c 0 e) = true).
    { rewrite slice_0 by lia. now apply is_blank_firstn. }
    split.
    + split.
      * apply separated_cons_spacer; [|eapply separated_tail; eauto].
        split; [|exact Hrest].
        intros E. pose proof (slice_from_length c e) as Hl. rewrite E in Hl.
        change (len []) with 0 in Hl. lia.
      * constructor; [|now apply Forall_inv_tail in Hf].
        split; [|intros E; rewrite Hrest in E; discriminate].
        intros E. pose proof (slice_from_length c e) as Hl. rewrite E in Hl.
        change (len []) with 0 in Hl. lia.
    + rewrite line_words_long by (assumption || apply Hm).
      rewrite !flat_map_app, Hsk. simpl.
      rewrite (words_blank _ Hrest), (words_blank _ Hb). now rewrite <- app_assoc.
Qed.

Lemma wrap_loop_words (fuel : nat) (chunks out : list str) :
  stack_ok width chunks ->
  wrap_loop fuel width chunks [] = Some out ->
  flat_map words out = flat_map words chunks.
Proof.
  intros Hok Hloop.
  apply (wrap_loop_ind width
           (fun cs ls => stack_ok width cs /\
                         flat_map words ls ++ flat_map words cs = flat_map words chunks))
    in Hloop.
  - destruct Hloop as [_ H]. simpl in H. now rewrite app_nil_r in H.
  - intros cs ls cs' ls' _ [Hcs Heq] Hstep.
    apply wrap_step_words in Hstep as [Hcs' Heq']; [|assumption].
    split; [assumption | congruence].
  - split; [assumption | reflexivity].
Qed.

(** The chunks of a text without hyphens whose words fit the width. *)
Lemma split_stack_ok (t : str) :
  no_hyphen t ->
  Forall (fun word => len word <= width) (fields is_ws t) ->
  stack_ok width (_split t).
Proof.
  intros Hno Hfit. unfold _split.
  destruct (split_matches_shape (length t) [] t Hno) as (Hsep & Hshape & _).
  pose proof (split_concat t) as Hcat. unfold _split in Hcat.
  set (chunks := split_matches (length t) [] t) in *. clearbody chunks.
  split; [eapply separated_weaken; [apply is_ws_isspace | exact Hsep]|].
  rewrite <- Hcat, fields_concat in Hfit by assumption.
  rewrite Forall_forall in *. intros c Hc.
  destruct (Hshape c Hc) as [[Hne Hws] | [Hne Hword]].
  - split; [assumption|]. intros E. exfalso.
    assert (is_blank c = true); [|congruence].
    unfold is_blank. rewrite forallb_forall in *. intros x Hx. apply is_ws_isspace; auto.
  - split; [assumption|]. intros _. apply Hfit.
    apply in_flat_map. exists c. split; [assumption|].
    rewrite (fields_word is_ws c Hne Hword). now left.
Qed.

(** A text without hyphens whose words fit the width is wrapped into
    lines that have its words, in order. *)
Lemma wrap_words (t : str) (out : list str) :
  no_hyphen t ->
  Forall (fun word => len word <= width) (fields is_ws t) ->
  wrap t width = Ok out ->
  flat_map words out = words t.
Proof.
  intros Hno Hfit. unfold wrap, _wrap_chunks, _split_chunks.
  destruct (width <=? 0); [discriminate|].
  destruct (wrap_loop _ _ _ _) as [lines|] eqn:Hloop; [|discriminate].
  intros [= <-].
  assert (Hok : stack_ok width (_split (_munge_whitespace t))).
  { apply split_stack_ok; [now apply no_hyphen_munge|].
    rewrite fields_munge; [assumption | auto]. }
  rewrite (wrap_loop_words _ _ _ Hok Hloop).
  rewrite <- words_concat by apply Hok. rewrite split_concat.
  apply fields_munge. apply is_ws_isspace.
Qed.

End Words.

(** C5, as stated, fails: a word of 25 letters is cut after the 21st, so
    the lines hold two words where the caption has one. *)
Lemma long_word_is_cut :
  break_word avery_5160 (text_lines_of long_word)
  = Ok [lit "aaaaaaaaaaaaaaaaaaaaa"; lit "aaaa"] /\
  words (join_with [space] [lit "aaaaaaaaaaaaaaaaaaaaa"; lit "aaaa"])
  = [lit "aaaaaaaaaaaaaaaaaaaaa"; lit "aaaa"] /\
  flat_map words (text_lines_of long_word) = [long_word] /\
  words (join_with [space] [lit "aaaaaaaaaaaaaaaaaaaaa"; lit "aaaa"])
  <> flat_map words (text_lines_of long_word).
Proof.
  split; [vm_compute; reflexivity|].
  split; [vm_compute; reflexivity|].
  split; [vm_compute; reflexivity|].
  vm_compute. discriminate.
Qed.

Lemma words_fitb_ok (width : Z) (fragment : str) :
  words_fitb width fragment = true -> words_fit width fragment.
Proof.
  unfold words_fitb, words_fit, no_hyphen. intros H. apply andb_prop in H as [Hh Hw].
  rewrite forallb_forall in Hh, Hw. split.
  - intros Hin. apply Hh in Hin. unfold is_hyphen in Hin.
    now rewrite Ascii.eqb_refl in Hin.
  - apply Forall_forall. intros word Hin. apply Hw in Hin. now apply Z.leb_le.
Qed.

Lemma all_words_fitb_ok (width : Z) (fragments : list str) :
  forallb (words_fitb width) fragments = true -> Forall (words_fit width) fragments.
Proof.
  intros H. rewrite forallb_forall in H. apply Forall_forall.
  intros fragment Hin. now apply words_fitb_ok, H.
Qed.

Lemma break_word_words (label_meta : LabelMeta) (fragments out : list str) :
  Forall (words_fit (text_line_max_len label_meta)) fragments ->
  break_word label_meta fragments = Ok out ->
  flat_map words out = flat_map words fragments.
Proof.
  unfold break_word. revert out.
  induction fragments as [|t rest IH]; intros out Hfit; [now intros [= <-]|].
  rewrite extend_each_cons.
  destruct (wrap t (text_line_max_len label_meta)) as [first|e] eqn:E; cbn [bind];
    [|discriminate].
  destruct (extend_each _ rest []) as [more|e] eqn:E2; cbn [bind]; [|discriminate].
  intros [= <-]. rewrite flat_map_app. cbn [flat_map].
  rewrite (IH more) by (now apply Forall_inv_tail in Hfit).
  f_equal. apply Forall_inv in Hfit as [Hno Hw].
  eapply wrap_words; eauto.
  destruct (Z_le_gt_dec (text_line_max_len label_meta) 0) as [H|H]; [|lia].
  rewrite wrap_invalid_width in E by assumption. discriminate.
Qed.

(** C5, amended.  When no fragment of the caption has a hyphen or a word
    longer than [text_line_max_len], the lines of the word-preserving
    wrap, joined with single spaces, have exactly the words of the
    caption's fragments, in the same order. *)
Theorem wrapped_words_are_caption_words
        (label_meta : LabelMeta) (caption : str) (out : list str) :
  Forall (words_fit (text_line_max_len label_meta)) (text_lines_of caption) ->
  break_word label_meta (text_lines_of caption) = Ok out ->
  words (join_with [space] out) = flat_map words (text_lines_of caption).
Proof.
  intros Hfit Hout. rewrite words_join_with_space.
  eapply break_word_words; eauto.
Qed.

Lemma wrapped_words_are_caption_words_witness :
  words (join_with [space]
           [lit "The quick  brown fox"; lit "jumps over"; lit "the lazy dog, twice."])
  = flat_map words (text_lines_of some_caption).
Proof.
  apply (wrapped_words_are_caption_words avery_5160 some_caption).
  - apply all_words_fitb_ok. vm_compute. reflexivity.
  - vm_compute. reflexivity.
Defined.

(** ** The url pattern *)

Lemma plus_success {A} (p : cls) (s : str) (k : str -> option A) (out : A) :
  plus p s k = Some out ->
  exists taken rest, s = taken ++ rest /\ matches (Plus p) taken /\ k rest = Some out.
Proof.
  revert out. induction s as [|c s IH]; intros out; simpl; [discriminate|].
  destruct (p c) eqn:Ec; [|discriminate].
  destruct (plus p s k) as [r|] eqn:E.
  - intros [= <-]. destruct (IH r eq_refl) as (taken & rest & -> & Hm & Hk).
    exists (c :: taken), rest. repeat split; [now constructor | assumption].
  - intros Hk. exists [c], s. repeat split; [now constructor | assumption].
Qed.

(** When [run] succeeds, the pattern matched a prefix [taken] of the
    text and the continuation succeeded on the rest, with groups that
    agree with the incoming ones outside the groups of the pattern; a
    group of the pattern that is set holds a part of the text. *)
Lemma run_success (r : regex) :
  forall (s : str) (g : groups) (k : str -> groups -> option groups) (out : groups),
    run r s g k = Some out ->
    exists taken rest g',
      s = taken ++ rest /\ matches r taken /\ k rest g' = Some out /\
      forall n, has_group n r = false -> lookup n g' = lookup n g.
Proof.
  induction r as [p | p | r1 IH1 r2 IH2 | r1 IH1 | n r1 IH1]; intros s g k out; simpl.
  - destruct s as [|c s]; [discriminate|]. destruct (p c) eqn:Ec; [|discriminate].
    intros Hk. exists [c], s, g. repeat split; [now constructor | assumption].
  - intros H. apply plus_success in H as (taken & rest & -> & Hm & Hk).
    exists taken, rest, g. now repeat split.
  - intros H. apply IH1 in H as (t1 & rest1 & g1 & -> & Hm1 & H & Hg1).
    apply IH2 in H as (t2 & rest2 & g2 & -> & Hm2 & Hk & Hg2).
    exists (t1 ++ t2), rest2, g2. rewrite app_assoc.
    repeat split; [now constructor | assumption|].
    intros n Hn. apply orb_false_elim in Hn as [Hn1 Hn2].
    now rewrite Hg2, Hg1.
  - destruct (run r1 s g k) as [g0|] eqn:E.
    + intros [= <-]. apply IH1 in E as (t & rest & g' & -> & Hm & Hk & Hg).
      exists t, rest, g'. repeat split; [now apply m_opt_some | assumption | assumption].
    + intros Hk. exists [], s, g. repeat split; [apply m_opt_none | assumption].
  - intros H. apply IH1 in H as (t & rest & g' & -> & Hm & Hk & Hg).
    exists t, rest, ((n, firstn (length (t ++ rest) - length rest) (t ++ rest)) :: g').
    repeat split; [now constructor | assumption|].
    intros m Hm'. apply orb_false_elim in Hm' as [Hne Hm']. simpl.
    rewrite Hne. now apply Hg.
Qed.

Lemma matches_literal (s t : str) : s <> [] -> matches (literal s) t -> t = s.
Proof.
  revert t. induction s as [|c s IH]; intros t Hne; [now elim Hne|].
  destruct s as [|c2 s].
  - simpl. intros H. inversion H as [p x Hx| | | | | |]; subst.
    unfold one in Hx. apply Ascii.eqb_eq in Hx. now subst.
  - change (literal (c :: c2 :: s)) with (Seq (Cls (one c)) (literal (c2 :: s))).
    intros H. inversion H as [| | |r1 r2 s1 s2 H1 H2| | |]; subst.
    inversion H1 as [p x Hx| | | | | |]; subst.
    unfold one in Hx. apply Ascii.eqb_eq in Hx. subst.
    apply IH in H2; [|discriminate]. now subst.
Qed.




Lemma rx_url_parts : _rx_url = Seq (Opt scheme_pattern) host_and_path_pattern.
Proof. reflexivity. Qed.

Lemma matches_scheme (t : str) :
  matches scheme_text t -> t = lit "http://" \/ t = lit "https://".
Proof.
  unfold scheme_text. intros H1.
  inversion H1 as [| | |r1 r2 s1 s2 Ha Hb| | |]; subst. clear H1.
  apply (matches_literal (lit "http")) in Ha; [|discriminate]. subst s1.
  inversion Hb as [| | |r1 r2 s3 s4 Hc Hd| | |]; subst. clear Hb.
  apply (matches_literal (lit "://")) in Hd; [|discriminate]. subst s4.
  inversion Hc as [| | | |r|r s He|]; subst; [now left|].
  inversion He as [p x Hx| | | | | |]; subst.
  unfold one in Hx. apply Ascii.eqb_eq in Hx. subst. now right.
Qed.

(** The scheme group of a match is [http://] or [https://], read at the
    start of the url. *)
Lemma scheme_group (url : str) (m : groups) (scheme : str) :
  match_ _rx_url url = Some m -> group m 1 = Some scheme ->
  (scheme = lit "http://" \/ scheme = lit "https://") /\
  exists rest, url = scheme ++ rest.
Proof.
  unfold match_, group. rewrite rx_url_parts. cbn [run].
  set (k := fun (s1 : str) (g1 : groups) => run host_and_path_pattern s1 g1 _).
  assert (Hk : forall s g out, k s g = Some out -> lookup 1 out = lookup 1 g).
  { subst k. cbv beta. intros s g out H.
    apply run_success in H as (t & rest & g' & _ & _ & [= <-] & Hg).
    now apply Hg. }
  destruct (run scheme_pattern url [] k) as [g0|] eqn:E.
  - intros [= <-] Hscheme.
    change (run scheme_pattern url [] k)
      with (run scheme_text url []
              (fun s' g' => k s' ((1%nat, firstn (length url - length s') url) :: g'))) in E.
    apply run_success in E as (t & rest & g' & Hurl & Hm & Hout & _).
    apply Hk in Hout. rewrite Hscheme in Hout. simpl in Hout.
    injection Hout as Hout. rewrite Hurl in Hout.
    rewrite length_app, Nat.add_sub in Hout.
    rewrite firstn_app, Nat.sub_diag, firstn_all in Hout. simpl in Hout.
    rewrite app_nil_r in Hout. subst t.
    split; [|now exists rest].
    now apply matches_scheme.
  - intros H Hscheme. apply Hk in H. rewrite Hscheme in H. discriminate.
Qed.

(** ** [Args.process_args] and the url *)

(** C9.  The url [example.com/path] gets the scheme [https://], the url
    [https://example.com] is kept as it is, and [not a url] is refused
    with 'Invalid url'; the record built from a data token has the url so
    normalized. *)
Theorem url_normalization_examples :
  normalize_url (lit "example.com/path") = Ok (lit "https://example.com/path") /\
  normalize_url (lit "https://example.com") = Ok (lit "https://example.com") /\
  normalize_url (lit "not a url") = Err (ValueError_invalid_url (lit "not a url")) /\
  (exists data,
      process_data_str false a_day avery_5160 (lit "example.com/path~Hello World") = Ok data /\
      url data = lit "https://example.com/path") /\
  (exists data,
      process_data_str false a_day avery_5160 (lit "https://example.com~Hello World") = Ok data /\
      url data = lit "https://example.com") /\
  process_data_str false a_day avery_5160 (lit "not a url~Hello World")
  = Err (ValueError_invalid_url (lit "not a url")).
Proof.
  repeat split; try (vm_compute; reflexivity);
    eexists; split; vm_compute; reflexivity.
Qed.

Lemma normalize_url_cases (url stored : str) :
  normalize_url url = Ok stored ->
  exists m,
    match_ _rx_url url = Some m /\
    ((exists scheme, group m 1 = Some scheme /\ scheme <> [] /\ stored = url) \/
     ((group m 1 = None \/ group m 1 = Some []) /\ stored = lit "https://" ++ url)).
Proof.
  unfold normalize_url. destruct (match_ _rx_url url) as [m|]; [|discriminate].
  intros H. exists m. split; [reflexivity|].
  destruct (group m 1) as [[|c scheme]|]; injection H as <-.
  - right. split; [now right | reflexivity].
  - left. exists (c :: scheme). repeat split. discriminate.
  - right. split; [now left | reflexivity].
Qed.








(** ** The renderer *)

Section RendererFacts.

Variable F : Type.
Variables (fadd fsub fmul : F -> F -> F).
Variable fdiv : F -> F -> option F.
Variable fle : F -> F -> bool.
Variable of_int : Z -> F.
Variables (f_1_01 f_1_1 : F).
Variable getBounds : shape F -> option (F * F * F * F).

Let draw := draw_address fadd fsub fmul fdiv fle of_int f_1_01 f_1_1 getBounds.
Let compose (data : LabelData) :=
  draw_lines fadd of_int getBounds (lines (reversed data)) (of_int 0) (of_int 3) (Group_ [] []).

(** The record is reversed in place whatever happens next. *)
Lemma draw_address_reverses (label : shape F) (width height : F) (data : LabelData) :
  snd (draw label width height data) = reversed data.
Proof.
  subst draw. unfold draw_address. fold (reversed data).
  destruct (draw_lines _ _ _ _ _ _ _) as [[y group]|e]; [|reflexivity].
  destruct (getBounds label) as [[[[x1 y1] lx] ly]|]; [|reflexivity].
  destruct (getBounds group) as [[[[x2 y2] tx] ty]|]; [|reflexivity].
  destruct (negb (fle tx _)); [reflexivity|].
  destruct (negb (fle ty ly)); [reflexivity|].
  destruct (getBounds (QrCodeWidget _ _)) as [[[[b0 b1] b2] b3]|]; [|reflexivity].
  destruct (fdiv (fsub b2 b0) f_1_1) as [w|]; [|reflexivity].
  destruct (fdiv (fsub b3 b1) f_1_1) as [h|]; [|reflexivity].
  destruct (fdiv height w) as [sx|]; [|reflexivity].
  destruct (fdiv height h) as [sy|]; reflexivity.
Qed.

(** When the text cannot be measured nothing is drawn. *)
Lemma unmeasured_text_draws_nothing (label : shape F) (width height : F) (data : LabelData) :
  (forall y group, compose data = Ok (y, group) ->
                   getBounds label = None \/ getBounds group = None) ->
  snd (fst (draw label width height data)) = label.
Proof.
  subst draw compose. unfold draw_address. fold (reversed data). cbv beta. intros H.
  destruct (draw_lines _ _ _ _ _ _ _) as [[y group]|e]; [|reflexivity].
  specialize (H y group eq_refl).
  destruct (getBounds label) as [[[[x1 y1] lx] ly]|]; [|reflexivity].
  destruct (getBounds group) as [[[[x2 y2] tx] ty]|]; [|reflexivity].
  destruct H; discriminate.
Qed.

(** C7, amended.  With the text block composed and measured, and the
    cell measured: the block's right bound is compared with the cell's
    right bound less [height * 1.01 + qr_text_pad], and its upper bound
    with the cell's upper bound.  If the first comparison fails,
    [draw_address] ends in an assertion error that carries the record
    (its lines reversed), the block's right bound and the cell's right
    bound; if the first holds and the second fails, in one that carries
    the record, the block's upper bound and the cell's upper bound.  In
    both cases the drawing surface is left as it was; the surface changes
    only when both comparisons held, and then the call succeeds. *)
Theorem bounds_checked_before_drawing
        (label : shape F) (width height : F) (data : LabelData)
        (y : F) (group : shape F)
        (x1 y1 label_x_bound label_y_bound x2 y2 text_x_bound text_y_bound : F) :
  compose data = Ok (y, group) ->
  getBounds label = Some (x1, y1, label_x_bound, label_y_bound) ->
  getBounds group = Some (x2, y2, text_x_bound, text_y_bound) ->
  (fle text_x_bound
       (fsub label_x_bound (fadd (fmul height f_1_01) (of_int (qr_text_pad (meta data)))))
   = false ->
   draw label width height data
   = (Err (AssertionError (reversed data) text_x_bound label_x_bound),
      label, reversed data)) /\
  (fle text_x_bound
       (fsub label_x_bound (fadd (fmul height f_1_01) (of_int (qr_text_pad (meta data)))))
   = true ->
   fle text_y_bound label_y_bound = false ->
   draw label width height data
   = (Err (AssertionError (reversed data) text_y_bound label_y_bound),
      label, reversed data)) /\
  (snd (fst (draw label width height data)) <> label ->
   fle text_x_bound
       (fsub label_x_bound (fadd (fmul height f_1_01) (of_int (qr_text_pad (meta data)))))
   = true /\
   fle text_y_bound label_y_bound = true /\
   fst (fst (draw label width height data)) = Ok tt).
Proof.
  intros Hcompose Hlabel Hgroup.
  subst draw compose. cbv beta in *. unfold draw_address, text_x_of. fold (reversed data).
  rewrite Hcompose, Hlabel, Hgroup.
  change (meta (reversed data)) with (meta data).
  destruct (fle text_x_bound _) eqn:Ex; cbn [negb].
  - destruct (fle text_y_bound label_y_bound) eqn:Ey; cbn [negb].
    + split; [discriminate|]. split; [discriminate|].
      intros Hchanged. split; [reflexivity|]. split; [reflexivity|].
      destruct (getBounds (QrCodeWidget _ _)) as [[[[b0 b1] b2] b3]|];
        [|now elim Hchanged].
      destruct (fdiv (fsub b2 b0) f_1_1) as [w|]; [|now elim Hchanged].
      destruct (fdiv (fsub b3 b1) f_1_1) as [h|]; [|now elim Hchanged].
      destruct (fdiv height w) as [sx|]; [|now elim Hchanged].
      destruct (fdiv height h) as [sy|]; [reflexivity | now elim Hchanged].
    + split; [discriminate|]. split; [reflexivity|].
      intros Hchanged. now elim Hchanged.
  - split; [reflexivity|]. split; [discriminate|].
    intros Hchanged. now elim Hchanged.
Qed.

End RendererFacts.

(** C7, as stated, fails in what the error carries.  For a caption line
    of 21 characters at size 9 in a cell of 187 by 72 points the text
    block is 113.4 wide; it is compared with 187 - (72 * 1.01 + 3) =
    111.28 and refused; the assertion error carries the record, 113.4 and
    187, the cell's bound, which is not the limit 111.28 of the
    comparison. *)
Lemma assertion_carries_the_cell_bound :
  demo_draw_address demo_label (187 # 1) (72 # 1) wide_record
  = (Err (AssertionError (reversed wide_record) (567 # 5) (187 # 1)),
     demo_label, reversed wide_record) /\
  Qeq_bool ((187 # 1) - ((72 # 1) * (101 # 100) + inject_Z (qr_text_pad (meta wide_record))))
           (2782 # 25) = true /\
  Qle_bool (567 # 5) (2782 # 25) = false /\
  Qle_bool (567 # 5) (187 # 1) = true /\
  Qeq_bool (187 # 1) (2782 # 25) = false.
Proof. repeat split; vm_compute; reflexivity. Qed.

(** At the wide record: the first comparison, 113.4 against 111.28,
    fails, and the call ends in the assertion error with the surface
    untouched. *)
Lemma bounds_checked_before_drawing_witness :
  Qle_bool (567 # 5)
           ((187 # 1) - ((72 # 1) * (101 # 100) + inject_Z (qr_text_pad (meta wide_record))))
  = false /\
  demo_draw_address demo_label (187 # 1) (72 # 1) wide_record
  = (Err (AssertionError (reversed wide_record) (567 # 5) (187 # 1)),
     demo_label, reversed wide_record).
Proof.
  split; [vm_compute; reflexivity|].
  refine (proj1 (bounds_checked_before_drawing
           Q Qplus Qminus Qmult demo_div Qle_bool inject_Z (101 # 100) (11 # 10) demo_bounds
           demo_label (187 # 1) (72 # 1) wide_record
           (24 # 1)
           (Group_ [String_ (0 # 1) (3 # 1) (lit "24-06-01") _default_font 6;
                    String_ (0 # 1) (12 # 1) (lit "aaaaaaaaaaaaaaaaaaaaa") _default_font 9] [])
           (0 # 1) (0 # 1) (187 # 1) (72 # 1)
           (0 # 1) (3 # 1) (567 # 5) (21 # 1) _ _ _) _);
    vm_compute; reflexivity.
Defined.

(** A caption line of 21 characters at size 9 is wider than what the cell
    leaves beside the code glyph: the record is refused and the surface
    is untouched.  A short caption is drawn: the glyph, then the text. *)
Example wide_record_is_refused :
  demo_draw_address demo_label (187 # 1) (72 # 1) wide_record
  = (Err (AssertionError (reversed wide_record) (567 # 5) (187 # 1)),
     demo_label, reversed wide_record).
Proof. vm_compute. reflexivity. Qed.

Example narrow_record_is_drawn :
  exists glyph block,
    demo_draw_address demo_label (187 # 1) (72 # 1) narrow_record
    = (Ok tt, Drawing_ (187 # 1) (72 # 1) [] [glyph; block], reversed narrow_record).
Proof. eexists _, _. vm_compute. reflexivity. Qed.

(** * Further properties of the code *)

(** ** Hard breaks keep what shows *)

Lemma visible_app (a b : str) : visible (a ++ b) = visible a ++ visible b.
Proof. apply filter_app. Qed.

Lemma visible_blank (s : str) : is_blank s = true -> visible s = [].
Proof.
  unfold is_blank, visible. induction s as [|c s IH]; [reflexivity|].
  simpl. intros H. apply andb_prop in H as [Hc Hs]. rewrite Hc. now apply IH.
Qed.

Lemma visible_rstrip (s : str) : visible (rstrip s) = visible s.
Proof.
  destruct (rstrip_split s) as (blanks & Hs & Hb).
  rewrite Hs at 2. rewrite visible_app, (visible_blank _ Hb). now rewrite app_nil_r.
Qed.

Lemma visible_concat_map (f g : Z -> str) (l : list Z) :
  (forall i, In i l -> visible (f i) = visible (g i)) ->
  visible (concat (map f l)) = visible (concat (map g l)).
Proof.
  induction l as [|i l IH]; [reflexivity|]. intros H. simpl.
  rewrite !visible_app, IH by (intros; apply H; now right).
  f_equal. apply H. now left.
Qed.

Lemma startswith_space (i : str) :
  startswith i [space] = true -> exists rest, i = space :: rest.
Proof.
  destruct i as [|c rest]; [discriminate|]. cbn [startswith].
  intros H. apply andb_prop in H as [H _]. apply Ascii.eqb_eq in H. subst. now exists rest.
Qed.

Lemma slice_from_1 (c : ascii) (rest : str) : slice_from (c :: rest) 1 = rest.
Proof.
  unfold slice_from. rewrite clip_nonneg by lia. rewrite len_cons.
  pose proof (len_nonneg rest). now replace (Z.min 1 (1 + len rest)) with 1 by lia.
Qed.

Lemma firstn_plus {A} (a b : nat) (s : list A) :
  firstn (a + b) s = firstn a s ++ firstn b (skipn a s).
Proof.
  revert s. induction a as [|a IH]; intros s; [reflexivity|].
  destruct s as [|x s]; simpl; [now rewrite firstn_nil | now rewrite IH].
Qed.

(** Pieces of [m] characters, one after the other, make a prefix. *)
Lemma pieces_concat {A} (m k : nat) (s : list A) :
  concat (map (fun i => firstn m (skipn (i * m) s)) (seq 0 k)) = firstn (k * m) s.
Proof.
  induction k as [|k IH]; [reflexivity|].
  rewrite seq_S, map_app, concat_app, IH. simpl.
  rewrite app_nil_r. rewrite (Nat.add_comm m (k * m)). symmetry. apply firstn_plus.
Qed.

Lemma firstn_min_length {A} (k : nat) (l : list A) :
  firstn k l = firstn (Nat.min k (length l)) l.
Proof.
  destruct (Nat.le_gt_cases k (length l)) as [H|H].
  - now rewrite Nat.min_l.
  - rewrite Nat.min_r by lia. rewrite firstn_all. apply firstn_all2. lia.
Qed.

Lemma slice_piece {A} (s : list A) (i m : nat) :
  slice s (Z.of_nat i * Z.of_nat m) (Z.of_nat i * Z.of_nat m + Z.of_nat m)
  = firstn m (skipn (i * m) s).
Proof.
  rewrite <- Nat2Z.inj_mul. set (a := (i * m)%nat).
  unfold slice. rewrite !clip_nonneg by lia. unfold len.
  destruct (Nat.le_gt_cases a (length s)) as [H|H].
  - replace (Z.to_nat (Z.min (Z.of_nat a) (Z.of_nat (length s)))) with a by lia.
    rewrite (firstn_min_length m). rewrite length_skipn. f_equal. lia.
  - rewrite !skipn_all2 by lia. now rewrite !firstn_nil.
Qed.

Lemma ceil_div_covers (a b : Z) : 0 < b -> a <= ceil_div a b * b.
Proof.
  intros Hb. unfold ceil_div.
  pose proof (Z.div_mod (- a) b ltac:(lia)).
  pose proof (Z.mod_pos_bound (- a) b Hb). nia.
Qed.

Lemma ceil_div_nonneg (a b : Z) : 0 <= a -> 0 < b -> 0 <= ceil_div a b.
Proof.
  intros Ha Hb. unfold ceil_div.
  assert (- a / b <= 0); [|lia].
  apply Z.div_le_upper_bound; lia.
Qed.

(** The raw slices of [chunk_str] put together are the string. *)
Lemma slices_concat (cstr : str) (max_len : Z) :
  0 < max_len ->
  concat (map (fun idx => slice cstr (idx * max_len) (idx * max_len + max_len))
              (range (ceil_div (len cstr) max_len)))
  = cstr.
Proof.
  intros Hm. unfold range. rewrite map_map.
  set (m := Z.to_nat max_len). set (k := Z.to_nat (ceil_div (len cstr) max_len)).
  rewrite (map_ext _ (fun i => firstn m (skipn (i * m) cstr))).
  - rewrite pieces_concat. apply firstn_all2.
    pose proof (ceil_div_covers (len cstr) max_len Hm).
    pose proof (ceil_div_nonneg (len cstr) max_len (len_nonneg cstr) Hm).
    unfold len in *. subst m k. nia.
  - intros i. replace max_len with (Z.of_nat m) by (subst m; lia). apply slice_piece.
Qed.

Lemma chunk_str_visible (cstr : str) (max_len : Z) (chunks : list str) :
  0 < max_len -> chunk_str cstr max_len = Ok chunks ->
  visible (concat chunks) = visible cstr.
Proof.
  intros Hm. unfold chunk_str.
  replace (max_len =? 0) with false by (symmetry; apply Z.eqb_neq; lia).
  intros [= <-].
  rewrite <- (slices_concat cstr max_len Hm) at 2.
  apply visible_concat_map. intros idx _.
  set (piece := slice cstr _ _).
  destruct (negb (idx =? 0) && startswith (rstrip piece) [space]) eqn:E;
    [|apply visible_rstrip].
  apply andb_prop in E as [_ E]. apply startswith_space in E as (rest & E).
  rewrite <- (visible_rstrip piece), E, slice_from_1. reflexivity.
Qed.

Lemma extend_each_visible (f : str -> res (list str)) :
  (forall line more, f line = Ok more -> visible (concat more) = visible line) ->
  forall fragments out,
    extend_each f fragments [] = Ok out ->
    visible (concat out) = visible (concat fragments).
Proof.
  intros Hf fragments. induction fragments as [|line rest IH]; intros out.
  - now intros [= <-].
  - rewrite extend_each_cons.
    destruct (f line) as [first|e] eqn:E1; cbn [bind]; [|discriminate].
    destruct (extend_each f rest []) as [more|e] eqn:E2; cbn [bind]; [|discriminate].
    intros [= <-]. cbn [concat]. rewrite concat_app, !visible_app.
    f_equal; [now apply Hf | now apply IH].
Qed.

(** X1.  Hard-break mode gives only lines of at most [text_line_max_len]
    characters, whatever the fragments and the line length. *)
Theorem hard_break_lines_fit (label_meta : LabelMeta) (fragments out : list str) :
  break_any label_meta fragments = Ok out ->
  Forall (fun l => len l <= text_line_max_len label_meta) out.
Proof. apply break_any_length. Qed.

Lemma hard_break_lines_fit_witness :
  Forall (fun l => len l <= text_line_max_len avery_5160)
         (map lit ["  The quick   brown f"; "ox jumps"; " over the lazy dog,"; "twice and again"]%string).
Proof.
  apply (hard_break_lines_fit avery_5160 (text_lines_of spaced_caption)).
  vm_compute. reflexivity.
Defined.

Lemma trimmed_nil : trimmed [].
Proof. intros front c H. now destruct front. Qed.

Lemma trimmed_rstrip (s : str) : trimmed (rstrip s).
Proof. intros front c. apply rstrip_last. Qed.

Lemma trimmed_tail (c : ascii) (s : str) : trimmed (c :: s) -> trimmed s.
Proof. intros H front x E. apply (H (c :: front) x). now rewrite E. Qed.

Lemma chunk_str_trimmed (cstr : str) (max_len : Z) (chunks : list str) :
  chunk_str cstr max_len = Ok chunks -> Forall trimmed chunks.
Proof.
  unfold chunk_str. destruct (max_len =? 0); [discriminate|].
  intros [= <-]. apply Forall_forall. intros c Hc.
  apply in_map_iff in Hc as (idx & <- & _).
  set (piece := slice cstr _ _).
  destruct (negb (idx =? 0) && startswith (rstrip piece) [space]) eqn:E;
    [|apply trimmed_rstrip].
  apply andb_prop in E as [_ E]. apply startswith_space in E as (rest & E).
  rewrite E, slice_from_1. apply (trimmed_tail space). rewrite <- E. apply trimmed_rstrip.
Qed.

Lemma text_lines_trimmed (caption : str) : Forall trimmed (text_lines_of caption).
Proof.
  unfold text_lines_of. destruct (contains _line_break caption).
  - apply Forall_forall. intros l Hl. apply in_map_iff in Hl as (x & <- & _).
    apply trimmed_rstrip.
  - constructor; [apply trimmed_rstrip | constructor].
Qed.

Lemma extend_each_Forall_in (P : str -> Prop) (f : str -> res (list str)) :
  forall fragments out,
    (forall line more, In line fragments -> f line = Ok more -> Forall P more) ->
    extend_each f fragments [] = Ok out -> Forall P out.
Proof.
  intros fragments. induction fragments as [|line rest IH]; intros out Hf.
  - intros [= <-]. constructor.
  - rewrite extend_each_cons.
    destruct (f line) as [first|e] eqn:E1; cbn [bind]; [|discriminate].
    destruct (extend_each f rest []) as [more|e] eqn:E2; cbn [bind]; [|discriminate].
    intros [= <-]. apply Forall_app. split.
    + apply (Hf line); [now left | assumption].
    + apply IH; [|reflexivity]. intros l m Hl. apply Hf. now right.
Qed.

(** X2.  In hard-break mode no line of a caption ends in whitespace: the
    fragments are right-trimmed, and so is every chunk cut from one. *)
Theorem hard_break_lines_are_trimmed
        (label_meta : LabelMeta) (caption : str) (out : list str) :
  break_any label_meta (text_lines_of caption) = Ok out ->
  Forall trimmed out.
Proof.
  apply extend_each_Forall_in. intros line more Hin.
  destruct (len line <=? text_line_max_len label_meta).
  - intros [= <-]. constructor; [|constructor].
    pose proof (text_lines_trimmed caption) as H. rewrite Forall_forall in H. now apply H.
  - apply chunk_str_trimmed.
Qed.

Lemma hard_break_lines_are_trimmed_witness :
  Forall trimmed
         (map lit ["  The quick   brown f"; "ox jumps"; " over the lazy dog,"; "twice and again"]%string).
Proof.
  apply (hard_break_lines_are_trimmed avery_5160 spaced_caption).
  vm_compute. reflexivity.
Defined.

Lemma break_any_visible (label_meta : LabelMeta) (fragments out : list str) :
  1 <= text_line_max_len label_meta ->
  break_any label_meta fragments = Ok out ->
  visible (concat out) = visible (concat fragments).
Proof.
  intros Hw. apply extend_each_visible. intros line more.
  destruct (len line <=? text_line_max_len label_meta).
  - intros [= <-]. simpl. now rewrite app_nil_r.
  - apply chunk_str_visible. lia.
Qed.

(** X3.  Hard-break mode, with a line length of at least 1, loses no
    character that shows: the lines hold the non-whitespace characters
    of the fragments, all of them and in order. *)
Theorem hard_break_keeps_visible_characters
        (label_meta : LabelMeta) (fragments out : list str) :
  1 <= text_line_max_len label_meta ->
  break_any label_meta fragments = Ok out ->
  visible (concat out) = visible (concat fragments).
Proof. apply break_any_visible. Qed.

Lemma hard_break_keeps_visible_characters_witness :
  visible (concat (map lit ["  The quick   brown f"; "ox jumps"; " over the lazy dog,"; "twice and again"]%string))
  = visible (concat (text_lines_of spaced_caption)).
Proof.
  apply (hard_break_keeps_visible_characters avery_5160 (text_lines_of spaced_caption)).
  - vm_compute. discriminate.
  - vm_compute. reflexivity.
Defined.

(** ** Word wrapping keeps what shows *)

Lemma visible_repeat_space (n : nat) : visible (repeat space n) = [].
Proof. induction n as [|n IH]; [reflexivity | exact IH]. Qed.

Lemma visible_expandtabs (tabsize column : nat) (s : str) :
  visible (expandtabs_from tabsize column s) = visible s.
Proof.
  revert column. induction s as [|c s IH]; intros column; [reflexivity|].
  cbn [expandtabs_from]. destruct (Ascii.eqb c tab) eqn:E.
  - apply Ascii.eqb_eq in E. subst c.
    change (visible (tab :: s)) with (visible s).
    destruct (0 <? tabsize)%nat; [|apply IH].
    now rewrite visible_app, visible_repeat_space, IH.
  - unfold visible in *. cbn [filter]. now rewrite IH.
Qed.

Lemma visible_translate (s : str) : visible (translate_whitespace s) = visible s.
Proof.
  unfold translate_whitespace, visible. induction s as [|c s IH]; [reflexivity|].
  cbn [map filter]. rewrite IH. destruct (is_ws c) eqn:E; [|reflexivity].
  now rewrite (is_ws_isspace c E).
Qed.

Lemma visible_munge (s : str) : visible (_munge_whitespace s) = visible s.
Proof.
  unfold _munge_whitespace, expandtabs. now rewrite visible_translate, visible_expandtabs.
Qed.

Lemma append_line_concat (lines cur_line : list str) :
  concat (append_line lines cur_line) = concat lines ++ concat (rev cur_line).
Proof.
  destruct cur_line as [|last front]; [simpl; now rewrite app_nil_r|].
  unfold append_line, join. rewrite concat_app. simpl. now rewrite app_nil_r.
Qed.

Lemma visible_drop_trailing_blank (cur_line : list str) :
  visible (concat (rev (drop_trailing_blank cur_line))) = visible (concat (rev cur_line)).
Proof.
  destruct cur_line as [|last front]; [reflexivity|].
  unfold drop_trailing_blank. destruct (is_blank last) eqn:E; [|reflexivity].
  simpl rev. rewrite concat_app, visible_app. simpl.
  rewrite app_nil_r, (visible_blank last E). now rewrite app_nil_r.
Qed.

Lemma wrap_step_visible (width : Z) (chunks lines chunks' lines' : list str) :
  1 <= width ->
  wrap_step width chunks lines = (chunks', lines') ->
  visible (concat lines') ++ visible (concat chunks')
  = visible (concat lines) ++ visible (concat chunks).
Proof.
  intros Hw Hstep.
  apply wrap_step_spec in Hstep as (skipped & moved & Hskipped & _ & Hcase); [|assumption].
  assert (Hsk : visible (concat skipped) = []).
  { destruct Hskipped as [-> | (top & -> & Hb & _)]; [reflexivity|].
    simpl. rewrite app_nil_r. now apply visible_blank. }
  destruct Hcase as [(-> & _ & ->) | (c & below & e & -> & _ & He & _ & -> & ->)];
    rewrite append_line_concat, visible_app, visible_drop_trailing_blank,
            !concat_app, !visible_app, Hsk.
  - rewrite rev_involutive. cbn [app]. now rewrite app_assoc.
  - cbn [rev concat]. rewrite rev_involutive, concat_app, !visible_app. cbn [concat app].
    rewrite app_nil_r.
    rewrite <- (slice_0_app c e) at 3 by lia. rewrite visible_app.
    now rewrite <- !app_assoc.
Qed.

Lemma wrap_visible (t : str) (width : Z) (out : list str) :
  wrap t width = Ok out -> visible (concat out) = visible t.
Proof.
  unfold wrap, _wrap_chunks, _split_chunks.
  destruct (width <=? 0) eqn:Ew; [discriminate|]. apply Z.leb_gt in Ew.
  destruct (wrap_loop _ _ _ _) as [lines|] eqn:Hloop; [|discriminate].
  intros [= <-].
  apply (wrap_loop_ind width
           (fun cs ls => visible (concat ls) ++ visible (concat cs)
                         = visible (concat (_split (_munge_whitespace t)))))
    in Hloop.
  - simpl in Hloop. rewrite app_nil_r in Hloop.
    now rewrite Hloop, split_concat, visible_munge.
  - intros cs ls cs' ls' _ Hinv Hstep.
    apply wrap_step_visible in Hstep; [congruence | lia].
  - reflexivity.
Qed.

(** ** Word wrapping gives no empty line *)

Lemma concat_nonempty (l : list str) :
  l <> [] -> Forall (fun c => c <> []) l -> concat l <> [].
Proof.
  destruct l as [|c l]; [now intros H|].
  intros _ H. apply Forall_inv in H. simpl. destruct c; [now elim H | discriminate].
Qed.

Lemma drop_trailing_blank_nonempty (cur_line : list str) :
  Forall (fun c => is_blank c = false -> c <> []) cur_line ->
  match cur_line with
  | [] => True
  | _ :: front => Forall (fun c => c <> []) front
  end ->
  Forall (fun c => c <> []) (drop_trailing_blank cur_line).
Proof.
  destruct cur_line as [|last front]; [constructor|].
  intros H Hfront. unfold drop_trailing_blank.
  destruct (is_blank last) eqn:E; [assumption|].
  constructor; [|assumption]. apply Forall_inv in H. now apply H.
Qed.

Lemma append_line_nonempty (lines cur_line : list str) :
  Forall (fun l => l <> []) lines ->
  Forall (fun c => c <> []) cur_line ->
  Forall (fun l => l <> []) (append_line lines cur_line).
Proof.
  intros Hl Hc. destruct cur_line as [|last front]; [assumption|].
  unfold append_line, join. apply Forall_app. split; [assumption|].
  constructor; [|constructor].
  apply concat_nonempty.
  - simpl. destruct (rev front); discriminate.
  - apply Forall_rev. assumption.
Qed.

Lemma wrap_step_nonempty (width : Z) (chunks lines chunks' lines' : list str) :
  1 <= width ->
  Forall (fun c => c <> []) chunks -> Forall (fun l => l <> []) lines ->
  wrap_step width chunks lines = (chunks', lines') ->
  Forall (fun c => c <> []) chunks' /\ Forall (fun l => l <> []) lines'.
Proof.
  intros Hw Hchunks Hlines Hstep.
  apply wrap_step_spec in Hstep as (skipped & moved & _ & Htotal & Hcase); [|assumption].
  destruct Hcase as [(-> & _ & ->) | (c & below & e & -> & Hlong & He & _ & -> & ->)].
  - apply Forall_app in Hchunks as [_ Hchunks]. apply Forall_app in Hchunks as [Hm Hc].
    split; [assumption|]. apply append_line_nonempty; [assumption|].
    apply Forall_rev in Hm.
    apply drop_trailing_blank_nonempty.
    + eapply Forall_impl; [|exact Hm]. auto.
    + destruct (rev moved); [exact I | now apply Forall_inv_tail in Hm].
  - apply Forall_app in Hchunks as [_ Hchunks]. apply Forall_app in Hchunks as [Hm Hc].
    pose proof (total_nonneg moved). split.
    + constructor; [|now apply Forall_inv_tail in Hc].
      intros E. pose proof (slice_from_length c e) as Hl. rewrite E in Hl.
      change (len []) with 0 in Hl. lia.
    + apply append_line_nonempty; [assumption|].
      apply Forall_rev in Hm.
      apply drop_trailing_blank_nonempty; [|assumption].
      constructor; [|eapply Forall_impl; [|exact Hm]; auto].
      intros Hb E. rewrite E in Hb. discriminate.
Qed.

Lemma wrap_nonempty (t : str) (width : Z) (out : list str) :
  wrap t width = Ok out -> Forall (fun l => l <> []) out.
Proof.
  unfold wrap, _wrap_chunks, _split_chunks.
  destruct (width <=? 0) eqn:Ew; [discriminate|]. apply Z.leb_gt in Ew.
  destruct (wrap_loop _ _ _ _) as [lines|] eqn:Hloop; [|discriminate].
  intros [= <-].
  apply (wrap_loop_ind width
           (fun cs ls => Forall (fun c => c <> []) cs /\ Forall (fun l => l <> []) ls))
    in Hloop.
  - apply Hloop.
  - intros cs ls cs' ls' _ [Hcs Hls] Hstep.
    apply (wrap_step_nonempty width cs ls cs' ls'); [lia | assumption..].
  - split; [apply split_nonempty | constructor].
Qed.

(** X4.  Word-preserving mode gives only lines of at most
    [text_line_max_len] characters, also for words longer than a line
    (they are cut) and for captions with tabs. *)
Theorem word_wrap_lines_fit (label_meta : LabelMeta) (fragments out : list str) :
  break_word label_meta fragments = Ok out ->
  Forall (fun l => len l <= text_line_max_len label_meta) out.
Proof. apply break_word_length. Qed.

Lemma word_wrap_lines_fit_witness :
  Forall (fun l => len l <= text_line_max_len avery_5160)
         (map lit ["A well-known,"; "extraordinarily-long"; "hyphenated-word"; "caption"]%string).
Proof.
  apply (word_wrap_lines_fit avery_5160 (text_lines_of hyphenated_caption)).
  vm_compute. reflexivity.
Defined.

Lemma break_word_visible (label_meta : LabelMeta) (fragments out : list str) :
  break_word label_meta fragments = Ok out ->
  visible (concat out) = visible (concat fragments).
Proof.
  apply extend_each_visible. intros line more. apply wrap_visible.
Qed.

(** X5.  Word-preserving mode loses no character that shows: the lines
    hold the non-whitespace characters of the fragments, all of them and
    in order, whatever is cut or broken at a hyphen. *)
Theorem word_wrap_keeps_visible_characters
        (label_meta : LabelMeta) (fragments out : list str) :
  break_word label_meta fragments = Ok out ->
  visible (concat out) = visible (concat fragments).
Proof. apply break_word_visible. Qed.

Lemma word_wrap_keeps_visible_characters_witness :
  visible (concat (map lit ["A well-known,"; "extraordinarily-long"; "hyphenated-word"; "caption"]%string))
  = visible (concat (text_lines_of hyphenated_caption)).
Proof.
  apply (word_wrap_keeps_visible_characters avery_5160 (text_lines_of hyphenated_caption)).
  vm_compute. reflexivity.
Defined.

(** X6.  Word-preserving mode never gives an empty line, whatever the
    fragments are (empty ones, or blank ones, give no line at all). *)
Theorem word_wrap_has_no_empty_line (label_meta : LabelMeta) (fragments out : list str) :
  break_word label_meta fragments = Ok out ->
  Forall (fun l => l <> []) out.
Proof.
  apply extend_each_Forall. intros line more. apply wrap_nonempty.
Qed.

Lemma word_wrap_has_no_empty_line_witness :
  Forall (fun l => l <> []) (map lit ["a"; "b"]%string).
Proof.
  apply (word_wrap_has_no_empty_line avery_5160 (text_lines_of (lit "a#%  #%#%b#%"))).
  vm_compute. reflexivity.
Defined.

(** ** The constructor *)

Lemma split_from_not_nil (sep : str) (skip : nat) (cur s : str) :
  Py.split_from sep skip cur s <> [].
Proof.
  revert skip cur. induction s as [|c s IH]; intros skip cur.
  - cbn. intros H. discriminate H.
  - cbn [Py.split_from]. destruct skip; [|apply IH].
    destruct (startswith (c :: s) sep); [intros H; discriminate H | apply IH].
Qed.

Lemma text_lines_not_nil (caption : str) : text_lines_of caption <> [].
Proof.
  unfold text_lines_of. destruct (contains _line_break caption); [|discriminate].
  unfold split. pose proof (split_from_not_nil _line_break 0 [] caption) as H.
  destruct (Py.split_from _line_break 0 [] caption); [now elim H | discriminate].
Qed.

(** X7.  With a line length of at least 1 the constructor either builds
    the record or raises 'Text too long' with the caption: no other
    exception leaves it, in either mode. *)
Theorem constructor_fails_only_with_text_too_long
        (break_on_any : bool) (now : date) (url caption : str) (label_meta : LabelMeta) :
  1 <= text_line_max_len label_meta ->
  (exists data, LabelData_init break_on_any now url caption label_meta = Ok data) \/
  LabelData_init break_on_any now url caption label_meta
  = Err (ValueError_text_too_long caption).
Proof.
  intros Hw. unfold LabelData_init.
  destruct (break_word_returns label_meta (text_lines_of caption) Hw) as (by_word & ->).
  destruct (break_any_returns label_meta (text_lines_of caption) Hw) as (by_char & ->).
  destruct break_on_any; cbn [bind].
  - destruct (max_text_lines label_meta <? len by_char);
      [now right | left; eexists; reflexivity].
  - destruct (max_text_lines label_meta <? len by_word) eqn:E; cbn [bind].
    + destruct (max_text_lines label_meta <? len by_char);
        [now right | left; eexists; reflexivity].
    + rewrite E. left; eexists; reflexivity.
Qed.

Lemma constructor_fails_only_with_text_too_long_witness :
  (exists data, LabelData_init false a_day a_url five_words avery_5160 = Ok data) \/
  LabelData_init false a_day a_url five_words avery_5160
  = Err (ValueError_text_too_long five_words).
Proof.
  apply (constructor_fails_only_with_text_too_long false a_day a_url five_words avery_5160).
  vm_compute. discriminate.
Defined.

(** X8.  With a line length of at least 1, a caption that forced
    hard-break mode accepts is accepted in default mode too: the flag
    never makes a caption fit that the default refuses. *)
Theorem default_mode_accepts_what_hard_break_accepts
        (now : date) (url caption : str) (label_meta : LabelMeta) (data : LabelData) :
  1 <= text_line_max_len label_meta ->
  LabelData_init true now url caption label_meta = Ok data ->
  exists data', LabelData_init false now url caption label_meta = Ok data'.
Proof.
  intros Hw. unfold LabelData_init.
  destruct (break_word_returns label_meta (text_lines_of caption) Hw) as (by_word & ->).
  destruct (break_any label_meta (text_lines_of caption)) as [by_char|e]; cbn [bind];
    [|discriminate].
  destruct (max_text_lines label_meta <? len by_char) eqn:Ec; [discriminate|].
  intros _.
  destruct (max_text_lines label_meta <? len by_word) eqn:E; cbn [bind].
  - rewrite Ec. eexists; reflexivity.
  - rewrite E. eexists; reflexivity.
Qed.

Lemma default_mode_accepts_what_hard_break_accepts_witness :
  exists data', LabelData_init false a_day a_url eleven_letter_words avery_5160 = Ok data'.
Proof.
  eapply (default_mode_accepts_what_hard_break_accepts
            a_day a_url eleven_letter_words avery_5160).
  - vm_compute. discriminate.
  - vm_compute. reflexivity.
Defined.

(** X9.  With a line length of at least 1, a constructed record shows
    the caption whole: its caption lines, in order, hold exactly the
    non-whitespace characters of the caption's fragments, and the only
    line after them is the timestamp when the template asks for it.
    Nothing is truncated. *)
Theorem record_shows_the_whole_caption
        (break_on_any : bool) (now : date) (url caption : str)
        (label_meta : LabelMeta) (data : LabelData) :
  1 <= text_line_max_len label_meta ->
  LabelData_init break_on_any now url caption label_meta = Ok data ->
  exists caption_lines,
    map text (lines data) =
      caption_lines ++ (if include_timestamp label_meta then [strftime_y_m_d now] else []) /\
    visible (concat caption_lines) = visible (concat (text_lines_of caption)).
Proof.
  intros Hw H. apply LabelData_init_lines in H as (broken_lines & Hsrc & _ & ->).
  exists broken_lines. split.
  - rewrite map_app, map_map. cbn [text]. rewrite map_id.
    destruct (include_timestamp label_meta); reflexivity.
  - destruct Hsrc as [Ha | [_ Hb]].
    + now apply (break_any_visible label_meta).
    + now apply (break_word_visible label_meta).
Qed.

Lemma record_shows_the_whole_caption_witness :
  exists data,
    LabelData_init false a_day a_url spaced_caption avery_5160 = Ok data /\
    exists caption_lines,
      map text (lines data) =
        caption_lines ++ (if include_timestamp avery_5160 then [strftime_y_m_d a_day] else []) /\
      visible (concat caption_lines) = visible (concat (text_lines_of spaced_caption)).
Proof.
  eexists. split; [vm_compute; reflexivity|].
  apply (record_shows_the_whole_caption false a_day a_url spaced_caption avery_5160).
  - vm_compute. discriminate.
  - vm_compute. reflexivity.
Defined.

(** X10.  In default mode a template whose line length is zero or
    negative makes the constructor fail for every caption, with
    [textwrap]'s 'invalid width' and not with 'Text too long'. *)
Theorem default_mode_refuses_a_line_length_below_one
        (now : date) (url caption : str) (label_meta : LabelMeta) :
  text_line_max_len label_meta <= 0 ->
  LabelData_init false now url caption label_meta
  = Err (ValueError_invalid_width (text_line_max_len label_meta)).
Proof.
  intros Hw. unfold LabelData_init, break_word.
  pose proof (text_lines_not_nil caption) as Hne.
  destruct (text_lines_of caption) as [|line rest]; [now elim Hne|].
  rewrite extend_each_cons, wrap_invalid_width by assumption. reflexivity.
Qed.

Lemma default_mode_refuses_a_line_length_below_one_witness :
  LabelData_init false a_day a_url hello_world (with_line_length 0)
  = Err (ValueError_invalid_width (text_line_max_len (with_line_length 0))).
Proof.
  apply (default_mode_refuses_a_line_length_below_one a_day a_url hello_world (with_line_length 0)).
  vm_compute. discriminate.
Defined.

(** ** The data tokens *)

Lemma startswith_one (c x : ascii) (s : str) :
  startswith (x :: s) [c] = Ascii.eqb x c.
Proof. cbn. destruct s; apply andb_true_r. Qed.

(** Splitting on a one-character separator: one field more than there
    are separators, no separator in a field, and the fields joined by
    the separator are the string. *)
Lemma split_one_length (c : ascii) (cur s : str) :
  length (Py.split_from [c] 0 cur s) = S (count_occ ascii_dec s c).
Proof.
  revert cur. induction s as [|x s IH]; intros cur; [reflexivity|].
  cbn [Py.split_from]. rewrite startswith_one. cbn [length Nat.sub].
  destruct (Ascii.eqb x c) eqn:E.
  - apply Ascii.eqb_eq in E. subst x. rewrite count_occ_cons_eq by reflexivity.
    cbn [length]. now rewrite IH.
  - apply Ascii.eqb_neq in E. rewrite count_occ_cons_neq by assumption. apply IH.
Qed.

Lemma join_with_cons (sep a : str) (rest : list str) :
  rest <> [] -> join_with sep (a :: rest) = a ++ sep ++ join_with sep rest.
Proof. destruct rest; [now intros H | reflexivity]. Qed.

Lemma split_one_join (c : ascii) (cur s : str) :
  join_with [c] (Py.split_from [c] 0 cur s) = rev cur ++ s.
Proof.
  revert cur. induction s as [|x s IH]; intros cur; [cbn; now rewrite app_nil_r|].
  cbn [Py.split_from]. rewrite startswith_one. cbn [length Nat.sub].
  destruct (Ascii.eqb x c) eqn:E.
  - apply Ascii.eqb_eq in E. subst x.
    rewrite join_with_cons by apply split_from_not_nil.
    rewrite IH. reflexivity.
  - rewrite IH. cbn [rev]. now rewrite <- app_assoc.
Qed.

Lemma split_one_fields (c : ascii) (cur s : str) :
  ~ In c cur -> Forall (fun f => ~ In c f) (Py.split_from [c] 0 cur s).
Proof.
  revert cur. induction s as [|x s IH]; intros cur Hcur.
  - cbn. constructor; [|constructor]. intros H. apply in_rev in H. auto.
  - cbn [Py.split_from]. rewrite startswith_one. cbn [length Nat.sub].
    destruct (Ascii.eqb x c) eqn:E.
    + constructor; [|apply IH; intros []].
      intros H. apply in_rev in H. auto.
    + apply IH. apply Ascii.eqb_neq in E. intros [H | H]; auto.
Qed.

Lemma LabelData_init_fields (break_on_any : bool) (now : date) (u caption : str)
      (label_meta : LabelMeta) (data : LabelData) :
  LabelData_init break_on_any now u caption label_meta = Ok data ->
  url data = u /\ meta data = label_meta.
Proof.
  unfold LabelData_init.
  destruct (if break_on_any then _ else _) as [broken_lines|e]; cbn [bind]; [|discriminate].
  destruct (max_text_lines label_meta <? len broken_lines); [discriminate|].
  intros [= <-]. split; reflexivity.
Qed.

(** X11.  A data token that does not hold exactly one tilde is refused
    with 'Invalid data' and the token, before its url or caption is
    looked at. *)
Theorem token_needs_exactly_one_tilde
        (break_on_any : bool) (now : date) (label_type : LabelMeta) (data_str : str) :
  count_occ ascii_dec data_str tilde <> 1%nat ->
  process_data_str break_on_any now label_type data_str
  = Err (ValueError_invalid_data data_str).
Proof.
  intros Hcount. unfold process_data_str, split.
  pose proof (split_one_length tilde [] data_str) as Hlen.
  change (lit "~") with [tilde].
  destruct (Py.split_from [tilde] 0 [] data_str) as [|d0 [|d1 [|d2 more]]]; try reflexivity.
  cbn [length] in Hlen. elim Hcount. lia.
Qed.

Lemma token_needs_exactly_one_tilde_witness :
  process_data_str false a_day avery_5160 (lit "example.com~Hello~World")
  = Err (ValueError_invalid_data (lit "example.com~Hello~World")).
Proof.
  apply (token_needs_exactly_one_tilde false a_day avery_5160 (lit "example.com~Hello~World")).
  vm_compute. discriminate.
Defined.

(** X12.  An accepted data token is a url field, one tilde and a
    caption field, neither with a tilde in it; the record's url is the
    normalized url field, and the record is the one the constructor
    builds from that url and the caption field. *)
Theorem accepted_token_is_url_tilde_caption
        (break_on_any : bool) (now : date) (label_type : LabelMeta)
        (data_str : str) (data : LabelData) :
  process_data_str break_on_any now label_type data_str = Ok data ->
  exists url_field caption,
    data_str = url_field ++ tilde :: caption /\
    ~ In tilde url_field /\ ~ In tilde caption /\
    normalize_url url_field = Ok (url data) /\
    LabelData_init break_on_any now (url data) caption label_type = Ok data.
Proof.
  unfold process_data_str, split. change (lit "~") with [tilde].
  pose proof (split_one_join tilde [] data_str) as Hjoin.
  pose proof (split_one_fields tilde [] data_str (fun H => H)) as Hfields.
  destruct (Py.split_from [tilde] 0 [] data_str) as [|d0 [|d1 [|d2 more]]]; try discriminate.
  destruct (normalize_url d0) as [u|e] eqn:Eu; cbn [bind]; [|discriminate].
  intros Hinit. exists d0, d1.
  pose proof (LabelData_init_fields _ _ _ _ _ _ Hinit) as [Hu _].
  pose proof (Forall_inv Hfields) as H0.
  pose proof (Forall_inv (Forall_inv_tail Hfields)) as H1.
  split; [cbn in Hjoin; now rewrite <- Hjoin|].
  split; [assumption|]. split; [assumption|].
  rewrite Hu. split; assumption.
Qed.

Lemma accepted_token_is_url_tilde_caption_witness :
  exists data,
    process_data_str false a_day avery_5160 (lit "example.com~Hello World") = Ok data /\
    exists url_field caption,
      lit "example.com~Hello World" = url_field ++ tilde :: caption /\
      ~ In tilde url_field /\ ~ In tilde caption /\
      normalize_url url_field = Ok (url data) /\
      LabelData_init false a_day (url data) caption avery_5160 = Ok data.
Proof.
  eexists. split; [vm_compute; reflexivity|].
  apply (accepted_token_is_url_tilde_caption false a_day avery_5160 (lit "example.com~Hello World")).
  vm_compute. reflexivity.
Defined.

(** ** The list of tokens *)

Lemma for_each_Ok {A B} (f : A -> res B) (xs : list A) (acc out : list B) :
  for_each f xs acc = Ok out ->
  exists ys, out = acc ++ ys /\ Forall2 (fun x y => f x = Ok y) xs ys.
Proof.
  revert acc. induction xs as [|x xs IH]; intros acc; cbn [for_each].
  - intros [= <-]. exists []. split; [now rewrite app_nil_r | constructor].
  - destruct (f x) as [y|e] eqn:E; cbn [bind]; [|discriminate].
    intros H. apply IH in H as (ys & -> & Hys).
    exists (y :: ys). split; [now rewrite <- app_assoc | now constructor].
Qed.

Lemma for_each_first_error {A B} (f : A -> res B) (good : list A) (bad : A)
      (rest : list A) (acc : list B) (e : exn) :
  Forall (fun x => exists y, f x = Ok y) good ->
  f bad = Err e ->
  for_each f (good ++ bad :: rest) acc = Err e.
Proof.
  intros Hgood Hbad. revert acc. induction Hgood as [|x good (y & Hx) _ IH]; intros acc.
  - cbn. now rewrite Hbad.
  - cbn. rewrite Hx. cbn. apply IH.
Qed.

(** X13.  When [process_args] succeeds there was at least one token, the
    template is the registered one, and there is one record per token,
    in the order of the tokens, each the record of its token. *)
Theorem one_record_per_token_in_order
        (break_on_any : bool) (now : date) (label_type : str) (data : list str)
        (template : LabelMeta) (records : list LabelData) :
  process_args break_on_any now label_type data = Ok (template, records) ->
  _label_meta label_type = Some template /\
  data <> [] /\
  Forall2 (fun data_str record =>
             process_data_str break_on_any now template data_str = Ok record)
          data records.
Proof.
  unfold process_args.
  destruct (_label_meta label_type) as [m|]; [|discriminate].
  destruct (0 <? len data) eqn:E; [|discriminate].
  destruct (for_each _ data []) as [out|e] eqn:Eloop; cbn [bind]; [|discriminate].
  intros [= <- <-]. split; [reflexivity|]. split.
  - intros ->. discriminate E.
  - apply for_each_Ok in Eloop as (ys & -> & H). exact H.
Qed.

Lemma one_record_per_token_in_order_witness :
  exists records,
    process_args false a_day (lit "avery-5160") two_tokens = Ok (avery_5160, records) /\
    _label_meta (lit "avery-5160") = Some avery_5160 /\
    two_tokens <> [] /\
    Forall2 (fun data_str record =>
               process_data_str false a_day avery_5160 data_str = Ok record)
            two_tokens records.
Proof.
  eexists. split; [vm_compute; reflexivity|].
  apply (one_record_per_token_in_order false a_day (lit "avery-5160") two_tokens).
  vm_compute. reflexivity.
Defined.

(** X14.  [process_args] stops at the first token that fails and raises
    that token's error: the tokens after it are not looked at, and no
    record is kept. *)
Theorem first_bad_token_decides
        (break_on_any : bool) (now : date) (label_type : str) (template : LabelMeta)
        (good : list str) (bad : str) (rest : list str) (e : exn) :
  _label_meta label_type = Some template ->
  Forall (fun data_str =>
            exists record, process_data_str break_on_any now template data_str = Ok record)
         good ->
  process_data_str break_on_any now template bad = Err e ->
  process_args break_on_any now label_type (good ++ bad :: rest) = Err e.
Proof.
  intros Hmeta Hgood Hbad. unfold process_args. rewrite Hmeta.
  replace (0 <? len (good ++ bad :: rest)) with true.
  - now rewrite (for_each_first_error _ good bad rest [] e Hgood Hbad).
  - symmetry. apply Z.ltb_lt. rewrite len_app, len_cons.
    pose proof (len_nonneg good). pose proof (len_nonneg rest). lia.
Qed.

Lemma first_bad_token_decides_witness :
  process_args false a_day (lit "avery-5160")
               ([lit "example.com/a~First label"] ++ lit "no url~Second" :: [lit "also~bad~token"])
  = Err (ValueError_invalid_url (lit "no url")).
Proof.
  apply (first_bad_token_decides false a_day (lit "avery-5160") avery_5160).
  - vm_compute. reflexivity.
  - constructor; [|constructor]. eexists. vm_compute. reflexivity.
  - vm_compute. reflexivity.
Defined.

(** ** The url that is stored *)

(** X15.  Every url that is accepted is stored with a scheme in front,
    [http://] or [https://], and ends in the url as given. *)
Theorem stored_url_has_a_scheme (given stored : str) :
  normalize_url given = Ok stored ->
  (exists rest, stored = lit "http://" ++ rest \/ stored = lit "https://" ++ rest) /\
  (stored = given \/ stored = lit "https://" ++ given).
Proof.
  intros H. apply normalize_url_cases in H as (m & Hm & [(scheme & Hg & _ & ->) | (_ & ->)]).
  - destruct (scheme_group given m scheme Hm Hg) as ([-> | ->] & rest & Hrest).
    + split; [exists rest; now left | now left].
    + split; [exists rest; now right | now left].
  - split; [exists given; now right | now right].
Qed.

Lemma stored_url_has_a_scheme_witness :
  (exists rest, lit "https://example.com/path" = lit "http://" ++ rest \/
                lit "https://example.com/path" = lit "https://" ++ rest) /\
  (lit "https://example.com/path" = lit "example.com/path" \/
   lit "https://example.com/path" = lit "https://" ++ lit "example.com/path").
Proof.
  apply (stored_url_has_a_scheme (lit "example.com/path") (lit "https://example.com/path")).
  vm_compute. reflexivity.
Defined.

Lemma matches_plus (p : cls) (s : str) :
  matches (Plus p) s -> s <> [] /\ Forall (fun c => p c = true) s.
Proof.
  remember (Plus p) as r eqn:Er. intros H. revert Er.
  induction H as [| q c Hc | q c s Hc Hs IH | | | |]; intros Er; try discriminate.
  - injection Er as ->. split; [discriminate | now constructor].
  - injection Er as ->. split; [discriminate|]. constructor; [assumption | now apply IH].
Qed.

Lemma none_of_label_char (c : ascii) : none_of (lit "/.") c = true -> label_char c.
Proof.
  unfold none_of, label_char. cbn. rewrite orb_false_r, negb_true_iff.
  intros H. apply orb_false_elim in H as [H1 H2].
  split; now apply Ascii.eqb_neq.
Qed.

Lemma matches_host (t : str) :
  matches host_and_path_pattern t ->
  exists a x y b,
    t = a ++ x :: "."%char :: y :: b /\ a <> [] /\ label_char x /\ label_char y.
Proof.
  unfold host_and_path_pattern. intros H.
  inversion H as [| | |r1 r2 t2 t3 H2 _| | |]; subst. clear H.
  inversion H2 as [| | | | | |n r s Hbody]; subst. clear H2.
  inversion Hbody as [| | |r1 r2 p1 q1 Hp1 Hq1| | |]; subst. clear Hbody.
  inversion Hq1 as [| | |r1 r2 p2 q2 Hp2 Hq2| | |]; subst. clear Hq1.
  inversion Hq2 as [| | |r1 r2 d p4 Hd Hp4| | |]; subst. clear Hq2.
  inversion Hd as [p c Hc| | | | | |]; subst. clear Hd.
  unfold one in Hc. apply Ascii.eqb_eq in Hc. subst c.
  apply matches_plus in Hp1 as [Hne1 _].
  apply matches_plus in Hp2 as [Hne2 Hall2].
  apply matches_plus in Hp4 as [Hne4 Hall4].
  destruct (exists_last Hne2) as (front & x & ->).
  destruct p4 as [|y p4]; [now elim Hne4|].
  exists (p1 ++ front), x, y, (p4 ++ t3).
  split; [|split; [|split]].
  - cbn. rewrite <- ?app_assoc. cbn. rewrite <- ?app_assoc. reflexivity.
  - destruct p1; [now elim Hne1 | discriminate].
  - apply none_of_label_char. apply Forall_app in Hall2 as [_ Hx]. now apply Forall_inv in Hx.
  - apply none_of_label_char. now apply Forall_inv in Hall4.
Qed.

(** X16.  A url is accepted only if it has a dot with a host label on
    both sides: some character, then a character that is no slash and no
    dot, the dot, and another character that is no slash and no dot.  A
    url without a dot, or with a single character before its only dot,
    is refused. *)
Theorem accepted_url_has_a_dotted_host (given stored : str) :
  normalize_url given = Ok stored ->
  exists a x y b,
    given = a ++ x :: "."%char :: y :: b /\ a <> [] /\ label_char x /\ label_char y.
Proof.
  intros H. apply normalize_url_cases in H as (m & Hm & _).
  unfold match_ in Hm. rewrite rx_url_parts in Hm.
  apply run_success in Hm as (taken & rest & g' & -> & Hmatch & _ & _).
  inversion Hmatch as [| | |r1 r2 s1 s2 _ Hhost| | |]; subst.
  apply matches_host in Hhost as (a & x & y & b & -> & Ha & Hx & Hy).
  exists (s1 ++ a), x, y, (b ++ rest).
  split; [|split; [|split; assumption]].
  - rewrite <- ?app_assoc. cbn. rewrite <- ?app_assoc. reflexivity.
  - destruct s1; [assumption | discriminate].
Qed.

Lemma accepted_url_has_a_dotted_host_witness :
  exists a x y b,
    lit "example.com/path" = a ++ x :: "."%char :: y :: b /\
    a <> [] /\ label_char x /\ label_char y.
Proof.
  apply (accepted_url_has_a_dotted_host (lit "example.com/path") (lit "https://example.com/path")).
  vm_compute. reflexivity.
Defined.

(** A one-letter host before the dot is not enough, and a host without
    a dot neither. *)
Example short_hosts_are_refused :
  normalize_url (lit "a.b") = Err (ValueError_invalid_url (lit "a.b")) /\
  normalize_url (lit "localhost") = Err (ValueError_invalid_url (lit "localhost")) /\
  normalize_url (lit "ab.c") = Ok (lit "https://ab.c").
Proof. repeat split; vm_compute; reflexivity. Qed.

(** ** More on the renderer *)

Lemma reversed_twice (data : LabelData) : reversed (reversed data) = data.
Proof. destruct data as [u ls m]. unfold reversed. cbn. now rewrite rev_involutive. Qed.

Section RendererOrder.

Variable F : Type.
Variables (fadd fsub fmul : F -> F -> F).
Variable fdiv : F -> F -> option F.
Variable fle : F -> F -> bool.
Variable of_int : Z -> F.
Variables (f_1_01 f_1_1 : F).
Variable getBounds : shape F -> option (F * F * F * F).

Let draw := draw_address fadd fsub fmul fdiv fle of_int f_1_01 f_1_1 getBounds.

(** X17.  [draw_address] leaves the record with its lines in reverse
    order, whether it draws or fails; so drawing the same record a
    second time finds the lines reversed, and leaves them in their first
    order again. *)
Theorem drawing_reverses_the_record_in_place
        (label label2 : shape F) (width height width2 height2 : F) (data : LabelData) :
  snd (draw label width height data) = reversed data /\
  lines (snd (draw label width height data)) = rev (lines data) /\
  snd (draw label2 width2 height2 (snd (draw label width height data))) = data.
Proof.
  subst draw. rewrite !draw_address_reverses. split; [reflexivity|].
  split; [reflexivity | apply reversed_twice].
Qed.

Lemma draw_lines_shapes
        (label_lines : list LabelLine) (x y y' : F)
        (contents : list (shape F)) (moves : list (F * F)) (group : shape F) :
  draw_lines fadd of_int getBounds label_lines x y (Group_ contents moves) = Ok (y', group) ->
  exists shapes,
    group = Group_ (contents ++ shapes) moves /\
    Forall2 (fun line s =>
               exists at_y, s = String_ x at_y (text line) (font_name line) (line_font_size line))
            label_lines shapes.
Proof.
  revert y contents. induction label_lines as [|line rest IH]; intros y contents; cbn [draw_lines].
  - intros [= <- <-]. exists []. split; [now rewrite app_nil_r | constructor].
  - destruct (getBounds _) as [[[[b0 b1] b2] b3]|]; [|discriminate].
    cbn [add]. intros H. apply IH in H as (shapes & -> & Hshapes).
    eexists (_ :: shapes). split; [now rewrite <- app_assoc|].
    constructor; [now exists y | assumption].
Qed.

(** X18.  The loop over the lines skips none, not even an empty one:
    each line becomes one text shape at the same [x], with the line's
    text, font and size, added to the group after what it held, in the
    order of the lines. *)
Theorem every_line_becomes_one_text_shape
        (label_lines : list LabelLine) (x y y' : F)
        (contents : list (shape F)) (moves : list (F * F)) (group : shape F) :
  draw_lines fadd of_int getBounds label_lines x y (Group_ contents moves) = Ok (y', group) ->
  exists shapes,
    group = Group_ (contents ++ shapes) moves /\
    Forall2 (fun line s =>
               exists at_y, s = String_ x at_y (text line) (font_name line) (line_font_size line))
            label_lines shapes.
Proof. apply draw_lines_shapes. Qed.

Let compose (data : LabelData) :=
  draw_lines fadd of_int getBounds (lines (reversed data)) (of_int 0) (of_int 3) (Group_ [] []).

(** X19.  When [draw_address] succeeds on a drawing surface, the surface
    keeps what it held and gets two more children, in this order: the
    code glyph, a drawing that holds the code of the record's url at
    level M and is scaled by [height / w] and [height / h] for the
    glyph's size [w] by [h], and the text block, the composed group
    moved by [text_x] and [height - y], [y] being where the next line
    would have gone. *)
Theorem success_adds_the_glyph_then_the_text
        (w0 h0 : F) (transform0 : list F) (held : list (shape F))
        (width height : F) (data data' : LabelData) (label' : shape F) :
  draw (Drawing_ w0 h0 transform0 held) width height data = (Ok tt, label', data') ->
  exists y shapes w h sx sy,
    compose data = Ok (y, Group_ shapes []) /\
    fdiv height w = Some sx /\ fdiv height h = Some sy /\
    label' =
      Drawing_ w0 h0 transform0
        (held ++
         [Drawing_ w h [sx; of_int 0; of_int 0; sy; of_int 0; of_int 0]
                   [QrCodeWidget (url data) (lit "M")];
          Group_ shapes
                 [(text_x_of fadd fmul of_int f_1_01 height (reversed data),
                   fsub height y)]]).
Proof.
  subst draw compose. cbv beta. unfold draw_address. fold (reversed data).
  destruct (draw_lines _ _ _ _ _ _ _) as [[y group]|e] eqn:Hlines; [|discriminate].
  pose proof Hlines as Hshape.
  apply draw_lines_shapes in Hshape as (shapes & -> & _).
  destruct (getBounds (Drawing_ w0 h0 transform0 held)) as [[[[x1 y1] lx] ly]|];
    [|discriminate].
  destruct (getBounds (Group_ _ _)) as [[[[x2 y2] tx] ty]|]; [|discriminate].
  destruct (negb (fle tx _)); [discriminate|].
  destruct (negb (fle ty ly)); [discriminate|].
  destruct (getBounds (QrCodeWidget _ _)) as [[[[b0 b1] b2] b3]|]; [|discriminate].
  destruct (fdiv (fsub b2 b0) f_1_1) as [w|]; [|discriminate].
  destruct (fdiv (fsub b3 b1) f_1_1) as [h|]; [|discriminate].
  destruct (fdiv height w) as [sx|] eqn:Esx; [|discriminate].
  destruct (fdiv height h) as [sy|] eqn:Esy; [|discriminate].
  intros [= <- <-]. exists y, shapes, w, h, sx, sy.
  split; [reflexivity|]. split; [assumption|]. split; [assumption|].
  cbn [add translate app url]. now rewrite <- app_assoc.
Qed.

End RendererOrder.

Lemma every_line_becomes_one_text_shape_witness :
  exists shapes,
    Group_ [String_ (0 # 1) (3 # 1) (lit "24-06-01") _default_font 6;
            String_ (0 # 1) (12 # 1) [] _default_font 9;
            String_ (0 # 1) (24 # 1) (lit "Hello") _default_font 9] []
    = Group_ ([] ++ shapes) [] /\
    Forall2 (fun line s =>
               exists at_y, s = String_ (0 # 1) at_y (text line) (font_name line) (line_font_size line))
            demo_empty_line_record shapes.
Proof.
  apply (every_line_becomes_one_text_shape Q Qplus inject_Z demo_bounds
           demo_empty_line_record (0 # 1) (3 # 1) (36 # 1)).
  vm_compute. reflexivity.
Defined.

Lemma success_adds_the_glyph_then_the_text_witness :
  exists label',
    demo_draw_address demo_label (187 # 1) (72 # 1) narrow_record
    = (Ok tt, label', reversed narrow_record) /\
    exists y shapes w h sx sy,
      draw_lines Qplus inject_Z demo_bounds (lines (reversed narrow_record))
                 (inject_Z 0) (inject_Z 3) (Group_ [] [])
      = Ok (y, Group_ shapes []) /\
      demo_div (72 # 1) w = Some sx /\ demo_div (72 # 1) h = Some sy /\
      label' =
        Drawing_ (187 # 1) (72 # 1) []
          ([] ++
           [Drawing_ w h [sx; inject_Z 0; inject_Z 0; sy; inject_Z 0; inject_Z 0]
                     [QrCodeWidget (url narrow_record) (lit "M")];
            Group_ shapes
                   [(text_x_of Qplus Qmult inject_Z (101 # 100) (72 # 1) (reversed narrow_record),
                     Qminus (72 # 1) y)]]).
Proof.
  eexists. split; [vm_compute; reflexivity|].
  apply (success_adds_the_glyph_then_the_text
           Q Qplus Qminus Qmult demo_div Qle_bool inject_Z (101 # 100) (11 # 10) demo_bounds
           (187 # 1) (72 # 1) [] [] (187 # 1) (72 # 1) narrow_record (reversed narrow_record)).
  vm_compute. reflexivity.
Defined.

(** ** The cells that are skipped *)

Lemma for_each_total {A B} (f : A -> res B) (g : A -> B) (xs : list A) (acc : list B) :
  (forall x, In x xs -> f x = Ok (g x)) ->
  for_each f xs acc = Ok (acc ++ map g xs).
Proof.
  revert acc. induction xs as [|x xs IH]; intros acc H; cbn [for_each map].
  - now rewrite app_nil_r.
  - rewrite H by now left. cbn [bind]. rewrite IH by (intros; apply H; now right).
    now rewrite <- app_assoc.
Qed.

Lemma in_range (n i : Z) : In i (range n) <-> 0 <= i < n.
Proof.
  split; [apply range_bounds|]. intros H. unfold range.
  apply in_map_iff. exists (Z.to_nat i). split; [lia|]. apply in_seq. lia.
Qed.

Lemma range_NoDup (n : Z) : NoDup (range n).
Proof.
  unfold range. apply NoDup_map_NoDup_ForallPairs; [|apply seq_NoDup].
  intros a b _ _ H. lia.
Qed.

Lemma skip_cells_value (skip columns : Z) :
  columns <> 0 -> skip_cells skip columns = Ok (map (cell_of columns) (range skip)).
Proof.
  intros H. unfold skip_cells.
  rewrite (for_each_total _ (cell_of columns)); [reflexivity|].
  intros si _. now replace (columns =? 0) with false by (symmetry; now apply Z.eqb_neq).
Qed.

(** X20.  With a positive number of columns and any [skip], the cells
    left empty are the first [skip] cells of the grid in row-major
    order, each listed once: cell (row, column) is skipped exactly when
    its column is one of 1..columns, its row is at least 1, and fewer
    than [skip] cells come before or at it. *)
Theorem skipped_cells_are_the_first_in_row_major_order
        (skip columns : Z) (cells : list (Z * Z)) :
  0 < columns ->
  skip_cells skip columns = Ok cells ->
  length cells = Z.to_nat skip /\
  NoDup cells /\
  forall row col,
    In (row, col) cells <->
    1 <= row /\ 1 <= col <= columns /\ (row - 1) * columns + (col - 1) < skip.
Proof.
  intros Hc. rewrite skip_cells_value by lia. intros [= <-].
  split; [|split].
  - unfold range. now rewrite !length_map, length_seq.
  - apply NoDup_map_NoDup_ForallPairs; [|apply range_NoDup].
    intros a b _ _ H. unfold cell_of in H. injection H as Hq Hr.
    rewrite (Z.div_mod a columns), (Z.div_mod b columns) by lia. nia.
  - intros row col. rewrite in_map_iff. split.
    + intros (si & [= <- <-] & Hsi). apply in_range in Hsi.
      pose proof (Z.mod_pos_bound si columns Hc).
      pose proof (Z.div_mod si columns ltac:(lia)).
      assert (0 <= si / columns) by (apply Z.div_pos; lia).
      split; [lia|]. split; [lia|]. nia.
    + intros (Hrow & Hcol & Hskip).
      exists ((row - 1) * columns + (col - 1)). split.
      * unfold cell_of. f_equal.
        -- rewrite Z.div_add_l by lia. rewrite Z.div_small by lia. lia.
        -- replace ((row - 1) * columns + (col - 1))
             with ((col - 1) + (row - 1) * columns) by lia.
           rewrite Z.mod_add by lia. rewrite Z.mod_small by lia. lia.
      * apply in_range. nia.
Qed.

Lemma skipped_cells_are_the_first_in_row_major_order_witness :
  length [(1, 1); (1, 2); (1, 3); (2, 1)] = Z.to_nat 4 /\
  NoDup [(1, 1); (1, 2); (1, 3); (2, 1)] /\
  forall row col,
    In (row, col) [(1, 1); (1, 2); (1, 3); (2, 1)] <->
    1 <= row /\ 1 <= col <= 3 /\ (row - 1) * 3 + (col - 1) < 4.
Proof.
  apply (skipped_cells_are_the_first_in_row_major_order 4 3).
  - lia.
  - vm_compute. reflexivity.
Defined.

(** X21.  A [skip] of zero or less leaves no cell empty, whatever the
    grid; a grid of no columns with a positive [skip] ends in a
    division by zero. *)
Theorem skip_cells_edges :
  (forall skip columns, skip <= 0 -> skip_cells skip columns = Ok []) /\
  (forall skip, 0 < skip -> skip_cells skip 0 = Err ZeroDivisionError).
Proof.
  split.
  - intros skip columns H. unfold skip_cells. now rewrite range_nonpos.
  - intros skip H. unfold skip_cells, range.
    destruct (Z.to_nat skip) as [|n] eqn:E; [lia|]. reflexivity.
Qed.
